(** * Text summarization: a shallow embedding of the Python sources

    The development follows the layout of the repository:

    - [TextCleaning]  -- [src/preprocessing/text_cleaning.py]
    - [Extractive]    -- [src/summarizers/extractive.py]
    - [Abstractive]   -- [src/summarizers/abstractive.py]
    - [Evaluation]    -- [src/utils/evaluation.py]

    Python values are modelled as follows.  A [str] is the list of its
    Unicode code points; an [int] is a [Z]; a [list] is a [list]; a [dict]
    with string keys is a [gmap string _]; a Python [float] is a binary64
    primitive float.  A call that may raise returns a [result].  The
    pretrained models and the numeric libraries the code calls (NLTK's
    tokenizer, the sentence encoder, PageRank, NumPy's [argsort], the
    generative pipeline and the ROUGE scorer) are not part of the
    repository: they are interfaces (type classes) whose fields carry the
    documented contract of each call. *)

From Stdlib Require Import ZArith NArith List Bool Lia Permutation Sorted.
From Stdlib Require Import QArith.
From Stdlib Require Import Strings.String Strings.Ascii.
From Stdlib Require Import Floats.PrimFloat Numbers.Cyclic.Int63.Uint63.
From stdpp Require Import base list sorting strings gmap.

(** ** Python values *)

(** A Unicode code point. *)
Abbreviation char := N (only parsing).

(** A Python [str]: the list of its code points. *)
Abbreviation pystr := (list N) (only parsing).

(** The exceptions the modelled code can raise. *)
Inductive exn : Type :=
| ValueError
| ZeroDivisionError
| IndexError
| KeyError
| CollaboratorError.

(** The outcome of a call: a value, or a raised exception. *)
Inductive result (A : Type) : Type :=
| Ok (a : A)
| Raise (e : exn).
Arguments Ok {A} a.
Arguments Raise {A} e.

#[global] Instance result_ret : MRet result := fun A a => Ok a.
#[global] Instance result_bind : MBind result := fun A B k m =>
  match m with
  | Ok a => k a
  | Raise e => Raise e
  end.

(** [[f(x) for x in l]] where [f] may raise: the first exception wins. *)
Fixpoint map_result {A B : Type} (f : A -> result B) (l : list A) : result (list B) :=
  match l with
  | [] => Ok []
  | x :: l' => y ← f x; ys ← map_result f l'; Ok (y :: ys)
  end.

(** [l[i]] for a non-negative index: [IndexError] out of range. *)
Definition getitem {A : Type} (l : list A) (i : nat) : result A :=
  match l !! i with
  | Some x => Ok x
  | None => Raise IndexError
  end.

(** [l[:k]], with Python's reading of a negative bound as [len(l) + k]
    (and of a bound below [-len(l)] as [0]). *)
Definition slice_to {A : Type} (l : list A) (k : Z) : list A :=
  if (k <? 0)%Z
  then take (Z.to_nat (Z.of_nat (length l) + k)) l
  else take (Z.to_nat k) l.

(** [l[start:end]] with the same reading of negative bounds. *)
Definition slice {A : Type} (l : list A) (start stop : Z) : list A :=
  let n := Z.of_nat (length l) in
  let norm (i : Z) : Z :=
    if (i <? 0)%Z then Z.max 0 (n + i) else Z.min i n in
  let lo := norm start in
  let hi := norm stop in
  take (Z.to_nat (hi - lo)) (drop (Z.to_nat lo) l).

(** [sep.join(parts)]. *)
Fixpoint join (sep : pystr) (parts : list pystr) : pystr :=
  match parts with
  | [] => []
  | [p] => p
  | p :: rest => p ++ sep ++ join sep rest
  end.

(** The code points of an ASCII literal. *)
Definition lit (s : string) : pystr :=
  map (fun a => N_of_ascii a) (list_ascii_of_string s).

Definition SPACE : char := 32%N.

(** ** [src/preprocessing/text_cleaning.py] *)

Module TextCleaning.

(** The character class [[\x00-\x08\x0b\x0c\x0e-\x1f\x7f]] of [basic_clean]. *)
Definition is_control (c : char) : bool :=
  ((c <=? 8) || (c =? 11) || (c =? 12) || ((14 <=? c) && (c <=? 31)) || (c =? 127))%N.

(** The class [\s] of [re] on a [str] pattern, which is also the set that
    [str.strip] and [str.isspace] use: the code points CPython's
    [Py_UNICODE_ISSPACE] accepts. *)
Definition is_space (c : char) : bool :=
  (((9 <=? c) && (c <=? 13)) || ((28 <=? c) && (c <=? 32))
   || (c =? 133) || (c =? 160) || (c =? 5760)
   || ((8192 <=? c) && (c <=? 8202))
   || (c =? 8232) || (c =? 8233) || (c =? 8239) || (c =? 8287)
   || (c =? 12288))%N.

(** [re.sub(r"[...]", " ", text)] for a one-character class: every match
    is one character, replaced by one space. *)
Definition sub_class (cls : char -> bool) (text : pystr) : pystr :=
  map (fun c => if cls c then SPACE else c) text.

(** [re.sub(r"\s+", " ", text)]: scanning left to right, each maximal run
    of whitespace is one match and is replaced by one space.  [in_match]
    tells that the previous character belonged to the current match. *)
Fixpoint sub_space_runs (in_match : bool) (text : pystr) : pystr :=
  match text with
  | [] => []
  | c :: rest =>
      if is_space c
      then (if in_match then sub_space_runs true rest
            else SPACE :: sub_space_runs true rest)
      else c :: sub_space_runs false rest
  end.

(** [text.lstrip()]. *)
Fixpoint lstrip (text : pystr) : pystr :=
  match text with
  | [] => []
  | c :: rest => if is_space c then lstrip rest else text
  end.

(** [text.rstrip()]. *)
Definition rstrip (text : pystr) : pystr := rev (lstrip (rev text)).

(** [text.strip()]. *)
Definition strip (text : pystr) : pystr := rstrip (lstrip text).

(** [text.isspace()]: at least one character, and all of them whitespace. *)
Definition isspace (text : pystr) : bool :=
  match text with
  | [] => false
  | _ => forallb is_space text
  end.

Definition normalize_whitespace (text : pystr) : pystr :=
  let text := sub_space_runs false text in
  strip text.

Definition basic_clean (text : pystr) : pystr :=
  let text := sub_class is_control text in
  let text := normalize_whitespace text in
  text.

(** Truthiness of a [str]: non-empty. *)
Definition truthy (s : pystr) : bool :=
  match s with [] => false | _ => true end.

(** [sentence_split], given NLTK's [sent_tokenize].  ([ensure_nltk_punkt]
    only makes the tokenizer's data available; it does not change what
    [sent_tokenize] returns.) *)
Definition sentence_split (sent_tokenize : pystr -> list pystr) (text : pystr) : list pystr :=
  let sentences := sent_tokenize text in
  map strip (filter (fun s => truthy s && negb (isspace s) = true) sentences).

(** *** The normalizer, as the specification words it *)

(** A character the normalizer treats as a separator: a control character
    of the class, or whitespace. *)
Definition blank (c : char) : bool := is_control c || is_space c.

(** The pieces of [text] between separators (empty pieces included). *)
Fixpoint split_on (sep : char -> bool) (text : pystr) : list pystr :=
  match text with
  | [] => [[]]
  | c :: rest =>
      if sep c then [] :: split_on sep rest
      else match split_on sep rest with
           | w :: ws => (c :: w) :: ws
           | [] => [[c]]
           end
  end.

(** The words of [text]: its maximal runs of non-separator characters. *)
Definition words (text : pystr) : list pystr :=
  filter (fun w => w <> []) (split_on blank text).

(** The words joined by single ASCII spaces. *)
Definition unwords (ws : list pystr) : pystr := join [SPACE] ws.

End TextCleaning.

(** ** [src/summarizers/extractive.py] *)

Module Extractive.
Import TextCleaning.

(** The numeric libraries and pretrained models the summarizers call.
    [score] is the element type of the float arrays; its arithmetic is
    whatever the library computes, so it carries no algebraic law.  The
    laws below are the documented contracts of the calls:
    - [argsort] returns the indices that sort its argument, ascending; it
      is called with its default [kind], which promises nothing about the
      order of equal elements;
    - [encode] returns one vector per sentence, [cos_sim] one row per
      vector;
    - [pagerank] returns a dict with one entry per node [0 .. n-1] of the
      graph of an [n]-row matrix, in node order, or raises when the power
      iteration does not converge. *)
Class Backend : Type := {
  score : Type;
  fzero : score;
  eps : score;                                (* 1e-8 *)
  fadd : score -> score -> score;
  fmul : score -> score -> score;
  fdiv : score -> score -> score;
  fsqrt : score -> score;
  neg : score -> score;
  score_le : score -> score -> Prop;
  neg_le : forall a b, score_le (neg a) (neg b) -> score_le b a;
  argsort : list score -> list nat;
  argsort_perm : forall v, argsort v ≡ₚ seq 0 (length v);
  argsort_sorted : forall v p q i j x y,
    p <= q -> argsort v !! p = Some i -> argsort v !! q = Some j ->
    v !! i = Some x -> v !! j = Some y -> score_le x y;
  sent_tokenize : pystr -> list pystr;
  sent_tokenize_empty : sent_tokenize [] = [];
  encode : list pystr -> result (list (list score));
  encode_length : forall ss E, encode ss = Ok E -> length E = length ss;
  tensor_mean : list (list score) -> list score;
  cos_sim : list (list score) -> list score -> list score;
  cos_sim_length : forall E c, length (cos_sim E c) = length E;
  pagerank : list (list score) -> result (list (nat * score));
  pagerank_keys : forall M d, pagerank M = Ok d -> d.*1 = seq 0 (length M)
}.

(** [get_sentence_model] caches the encoder in a module-level variable;
    the handle is only read after it is loaded, so [encode] is a function
    of the sentences it is given. *)

Section WithBackend.
Context `{B : Backend}.

Record ExtractiveSummaryResult : Type := {
  summary : pystr;
  selected_sentences : list pystr;
  indices : list nat;
  scores : list score
}.

Definition empty_result : ExtractiveSummaryResult :=
  {| summary := []; selected_sentences := []; indices := []; scores := [] |}.

(** What [squeeze()] leaves of an [n]-by-1 array: a 0-dimensional array
    when [n = 1], a 1-dimensional one otherwise. *)
Inductive ndarray : Type :=
| Array0 (x : score)
| Array1 (v : list score).

Definition squeeze (column : list score) : ndarray :=
  match column with
  | [x] => Array0 x
  | _ => Array1 column
  end.

(** [np.linalg.norm(embeddings, axis=1, keepdims=True) + 1e-8]. *)
Definition row_norms (embeddings : list (list score)) : list score :=
  map (fun row => fadd (fsqrt (foldl fadd fzero (map (fun x => fmul x x) row))) eps)
      embeddings.

(** [embeddings / norm], the norm column broadcast along each row. *)
Definition divide_rows (embeddings : list (list score)) (norm : list score)
  : list (list score) :=
  zip_with (fun row n => map (fun x => fdiv x n) row) embeddings norm.

(** [np.dot(a, a.T)]: entry [(i, j)] is the product of rows [i] and [j]. *)
Definition dot_transpose (a : list (list score)) : list (list score) :=
  map (fun ri => map (fun rj => foldl fadd fzero (zip_with fmul ri rj)) a) a.

(** [np.fill_diagonal(m, val)]. *)
Definition fill_diagonal (m : list (list score)) (val : score) : list (list score) :=
  imap (fun i row => <[i := val]> row) m.

Definition _build_similarity_matrix (sentences : list pystr)
  : result (list (list score)) :=
  embeddings ← encode sentences;
  let norm := row_norms embeddings in
  let normed := divide_rows embeddings norm in
  let sim_matrix := dot_transpose normed in
  let sim_matrix := fill_diagonal sim_matrix fzero in
  Ok sim_matrix.

(** [sorted(l)] on a list of indices. *)
Definition sorted (l : list nat) : list nat := merge_sort Nat.le l.

(** [d[k]] on a dict kept in insertion order. *)
Fixpoint dict_get (d : list (nat * score)) (k : nat) : result score :=
  match d with
  | [] => Raise KeyError
  | (k', x) :: d' => if Nat.eqb k' k then Ok x else dict_get d' k
  end.

(** The statements both summarizers end with (lines 64-77 and 104-117):
    rank, clamp [k], take the top [k], restore document order, build the
    result. *)
Definition select (sentences : list pystr) (scores_tensor : list score)
    (num_sentences : Z) : result ExtractiveSummaryResult :=
  let ranked_idx := argsort (map neg scores_tensor) in
  let k := Z.min num_sentences (Z.of_nat (length sentences)) in
  let selected_idx := sorted (slice_to ranked_idx k) in
  selected_sentences ← map_result (getitem sentences) selected_idx;
  selected_scores ← map_result (getitem scores_tensor) selected_idx;
  let summary := join [SPACE] selected_sentences in
  Ok {| summary := summary;
        selected_sentences := selected_sentences;
        indices := selected_idx;
        scores := selected_scores |}.

(** Lines 56-62: the scores of the centroid ranker. *)
Definition centroid_scores (sentences : list pystr) : result (list score) :=
  embeddings ← encode sentences;
  let doc_centroid := tensor_mean embeddings in
  let scores_tensor := squeeze (cos_sim embeddings doc_centroid) in
  match scores_tensor with
  | Array0 x => Ok [x]
  | Array1 v => Ok v
  end.

(** Lines 94-103: the scores of the graph ranker. *)
Definition textrank_scores (sentences : list pystr) : result (list score) :=
  sim_matrix ← _build_similarity_matrix sentences;
  scores_dict ← pagerank sim_matrix;
  let indices := scores_dict.*1 in
  map_result (dict_get scores_dict) indices.

Definition centroid_extractive_summary (text : pystr) (num_sentences : Z)
  : result ExtractiveSummaryResult :=
  let cleaned := basic_clean text in
  let sentences := sentence_split sent_tokenize cleaned in
  if bool_decide (sentences = []) then Ok empty_result
  else
    scores_tensor ← centroid_scores sentences;
    select sentences scores_tensor num_sentences.

Definition textrank_extractive_summary (text : pystr) (num_sentences : Z)
  : result ExtractiveSummaryResult :=
  let cleaned := basic_clean text in
  let sentences := sentence_split sent_tokenize cleaned in
  if bool_decide (sentences = []) then Ok empty_result
  else
    scores ← textrank_scores sentences;
    select sentences scores num_sentences.

(** *** The selector's contract, as the specification words it *)

(** The sentences a summarizer works on. *)
Definition sentences_of (text : pystr) : list pystr :=
  sentence_split sent_tokenize (basic_clean text).

(** [indices], [scores] and [selected_sentences] all have length [n]. *)
Definition has_length (r : ExtractiveSummaryResult) (n : nat) : Prop :=
  length (indices r) = n /\ length (scores r) = n
  /\ length (selected_sentences r) = n.

(** The indices are strictly ascending and within the document, the
    selected sentences are the document's sentences at those indices, in
    that order, and the summary joins them with single spaces. *)
Definition in_document_order (sentences : list pystr)
    (r : ExtractiveSummaryResult) : Prop :=
  StronglySorted lt (indices r)
  /\ Forall (fun i => i < length sentences) (indices r)
  /\ Forall2 (fun i s => sentences !! i = Some s) (indices r) (selected_sentences r)
  /\ summary r = join [SPACE] (selected_sentences r).

(** The returned scores are those of the selected indices, and no
    sentence left out scores strictly higher than a selected one. *)
Definition keeps_best (v : list score) (r : ExtractiveSummaryResult) : Prop :=
  Forall2 (fun i x => v !! i = Some x) (indices r) (scores r)
  /\ forall i j x y, i ∈ indices r -> j ∉ indices r ->
       v !! i = Some x -> v !! j = Some y -> score_le y x.

End WithBackend.

End Extractive.

(** ** [src/summarizers/abstractive.py] *)

Module Abstractive.
Import TextCleaning.

(** The generative pipeline: [summarizer chunk max_length min_length] is
    [result[0]["summary_text"]] of one call of the HuggingFace pipeline
    (with [do_sample=False]). *)
Class Pipeline : Type := {
  summarizer : pystr -> Z -> Z -> pystr
}.

Record AbstractiveSummaryResult : Type := {
  summary : pystr;
  chunks : list pystr;
  chunk_summaries : list pystr
}.

Definition len (text : pystr) : Z := Z.of_nat (length text).

(** One pass through the body of the [while] loop of [_chunk_text]: the
    chunk it appends, and the next [start] ([None] when it breaks). *)
Definition loop_body (text : pystr) (max_chars overlap start : Z)
  : pystr * option Z :=
  let end_ := Z.min (len text) (start + max_chars) in
  let chunk := slice text start end_ in
  (chunk, if (end_ =? len text)%Z then None else Some (end_ - overlap)%Z).

(** The [while start < len(text)] loop.  The loop need not terminate (it
    does not when [overlap >= max_chars]), so it runs on [fuel]: [None]
    means the fuel ran out. *)
Fixpoint chunk_loop (fuel : nat) (text : pystr) (max_chars overlap start : Z)
    (chunks : list pystr) : option (list pystr) :=
  match fuel with
  | O => None
  | S fuel' =>
      if (start <? len text)%Z then
        let '(chunk, next) := loop_body text max_chars overlap start in
        let chunks := chunks ++ [chunk] in
        match next with
        | None => Some chunks
        | Some start' => chunk_loop fuel' text max_chars overlap start' chunks
        end
      else Some chunks
  end.

Definition _chunk_text (fuel : nat) (text : pystr) (max_chars overlap : Z)
  : option (list pystr) :=
  if (len text <=? max_chars)%Z then Some [text]
  else chunk_loop fuel text max_chars overlap 0 [].

Section WithPipeline.
Context `{P : Pipeline}.

(** One call of the pipeline.  The second component threads the log of
    the calls made so far (the texts the model was given), oldest first. *)
Definition call_summarizer (input : pystr) (max_length min_length : Z)
    (log : list pystr) : pystr * list pystr :=
  (summarizer input max_length min_length, log ++ [input]).

(** [for chunk in chunks: ... chunk_summaries.append(...)]. *)
Fixpoint summarize_chunks (chunks : list pystr) (max_length min_length : Z)
    (chunk_summaries : list pystr) (log : list pystr)
  : list pystr * list pystr :=
  match chunks with
  | [] => (chunk_summaries, log)
  | chunk :: rest =>
      let '(s, log) := call_summarizer chunk max_length min_length log in
      summarize_chunks rest max_length min_length (chunk_summaries ++ [s]) log
  end.

(** [abstractive_summary], started with the call log [log].  [_chunk_text]
    is called with its defaults; the fuel given to its loop is more than
    the loop can use (see [chunk_text_returns]). *)
Definition abstractive_summary (text : pystr) (max_length min_length : Z)
    (log : list pystr) : option (AbstractiveSummaryResult * list pystr) :=
  let cleaned := basic_clean text in
  match _chunk_text (S (length cleaned)) cleaned 2000 200 with
  | None => None
  | Some chunks =>
      let '(chunk_summaries, log) :=
        summarize_chunks chunks max_length min_length [] log in
      let '(final_summary, log) :=
        match chunk_summaries with
        | [s] => (s, log)
        | _ =>
            let combined := join [SPACE] chunk_summaries in
            call_summarizer combined max_length min_length log
        end in
      Some ({| summary := final_summary;
               chunks := chunks;
               chunk_summaries := chunk_summaries |}, log)
  end.

End WithPipeline.

End Abstractive.

(** ** [src/utils/evaluation.py] *)

Module Evaluation.

(** [rouge_score]'s [Score] tuple. *)
Record Score : Type := {
  precision : float;
  recall : float;
  fmeasure : float
}.

(** The metrics [compute_rouge] asks for; also the keys of [agg_scores],
    in insertion order. *)
Definition rouge_types : list string := ["rouge1"; "rouge2"; "rougeL"]%string.

(** [RougeScorer(rouge_types, use_stemmer).score(ref, cand)]: a dict with
    one [Score] per requested metric. *)
Class RougeScorer : Type := {
  scorer_score : bool -> pystr -> pystr -> gmap string Score;
  scorer_score_keys : forall use_stemmer ref cand key,
    key ∈ rouge_types -> is_Some (scorer_score use_stemmer ref cand !! key)
}.

(** [d[key]] on a dict. *)
Definition dict_lookup {V : Type} (d : gmap string V) (key : string) : result V :=
  match d !! key with
  | Some v => Ok v
  | None => Raise KeyError
  end.

(** [float(n)] for a length [n]: a length fits a machine word. *)
Definition float_of_len (n : nat) : float :=
  PrimFloat.of_uint63 (Uint63.of_Z (Z.of_nat n)).

(** [x / n] on a float and an int. *)
Definition truediv (x : float) (n : nat) : result float :=
  if Nat.eqb n 0 then Raise ZeroDivisionError
  else Ok (PrimFloat.div x (float_of_len n)).

(** A [for] loop whose body may raise. *)
Fixpoint for_each {S A : Type} (body : S -> A -> result S) (l : list A) (s : S)
  : result S :=
  match l with
  | [] => Ok s
  | x :: l' => s' ← body s x; for_each body l' s'
  end.

(** [agg[key][field] += x]. *)
Definition add_to (agg : gmap string (gmap string float)) (key field : string)
    (x : float) : result (gmap string (gmap string float)) :=
  inner ← dict_lookup agg key;
  old ← dict_lookup inner field;
  Ok (<[key := <[field := PrimFloat.add old x]> inner]> agg).

(** [agg[key][field] /= n]. *)
Definition div_by (agg : gmap string (gmap string float)) (key field : string)
    (n : nat) : result (gmap string (gmap string float)) :=
  inner ← dict_lookup agg key;
  old ← dict_lookup inner field;
  q ← truediv old n;
  Ok (<[key := <[field := q]> inner]> agg).

Definition zero_fields : gmap string float :=
  <["precision" := 0%float]> (<["recall" := 0%float]> (<["fmeasure" := 0%float]> ∅)).

Section WithScorer.
Context `{R : RougeScorer}.

Definition compute_rouge (references candidates : list pystr) (use_stemmer : bool)
  : result (gmap string (gmap string float)) :=
  if bool_decide (length references ≠ length candidates) then Raise ValueError
  else
    let agg_scores : gmap string (gmap string float) :=
      <["rouge1" := zero_fields]> (<["rouge2" := zero_fields]>
        (<["rougeL" := zero_fields]> ∅)) in
    let n := length references in
    agg_scores ←
      for_each (fun agg_scores '(ref, cand) =>
        let scores := scorer_score use_stemmer ref cand in
        for_each (fun agg_scores key =>
          s ← dict_lookup scores key;
          agg_scores ← add_to agg_scores key "precision" (precision s);
          agg_scores ← add_to agg_scores key "recall" (recall s);
          add_to agg_scores key "fmeasure" (fmeasure s))
          rouge_types agg_scores)
        (zip references candidates) agg_scores;
    agg_scores ←
      for_each (fun agg_scores key =>
        agg_scores ← div_by agg_scores key "precision" n;
        agg_scores ← div_by agg_scores key "recall" n;
        div_by agg_scores key "fmeasure" n)
        rouge_types agg_scores;
    Ok agg_scores.

(** The arithmetic mean as floats compute it: the left-to-right sum from
    [0.0], divided by the number of terms. *)
Definition mean (xs : list float) : float :=
  PrimFloat.div (foldl PrimFloat.add 0%float xs) (float_of_len (length xs)).

(** The [Score] of a pair for one metric. *)
Definition pair_score (use_stemmer : bool) (key : string) (p : pystr * pystr) : Score :=
  default {| precision := 0; recall := 0; fmeasure := 0 |}
          (scorer_score use_stemmer p.1 p.2 !! key).

End WithScorer.

End Evaluation.

(** ** [src/api/main.py] *)

Module Api.
Import TextCleaning.

(** What the endpoints need besides the summarizers: Python's
    [str.lower] (Unicode aware, so not modelled here) and the PDF text
    extractor of [src/preprocessing/pdf_loader.py], a wrapper around
    pdfminer. *)
Class Runtime : Type := {
  lower : pystr -> pystr;
  extract_text_from_pdf_bytes : list Byte.byte -> pystr
}.

Record SummarizeRequest : Type := {
  text : pystr;
  mode : pystr;
  num_sentences : Z;
  max_length : Z;
  min_length : Z
}.

(** What a handler does: it returns a value, raises [HTTPException], or
    lets an exception of a collaborator through. *)
Inductive outcome (A : Type) : Type :=
| Respond (a : A)
| HTTPException (status_code : Z) (detail : string)
| Uncaught (e : exn).
Arguments Respond {A} a.
Arguments HTTPException {A} status_code detail.
Arguments Uncaught {A} e.

Section WithCollaborators.
Context `{B : Extractive.Backend} `{P : Abstractive.Pipeline} `{T : Runtime}.

(** The [details] dict of a response: its keys depend on the mode. *)
Inductive details : Type :=
| ExtractiveDetails (indices : list nat) (scores : list Extractive.score)
    (selected_sentences : list pystr)
| AbstractiveDetails (chunks : list pystr) (chunk_summaries : list pystr).

Record SummarizeResponse : Type := {
  response_summary : pystr;
  response_mode : string;
  response_details : option details
}.

(** [summarize].  [log] is the log of the calls of the generative model,
    as in [abstractive_summary]; [None] stands for a chunking loop that
    does not return. *)
Definition summarize (request : SummarizeRequest) (log : list pystr)
  : option (outcome SummarizeResponse * list pystr) :=
  let text := strip (text request) in
  if negb (truthy text) then
    Some (HTTPException 400 "Input text is empty.", log)
  else
    let mode := lower (mode request) in
    if bool_decide (mode = lit "extractive") then
      match Extractive.centroid_extractive_summary text (num_sentences request) with
      | Ok result =>
          Some (Respond
                  {| response_summary := Extractive.summary result;
                     response_mode := "extractive";
                     response_details :=
                       Some (ExtractiveDetails
                               (Extractive.indices result)
                               (Extractive.scores result)
                               (Extractive.selected_sentences result)) |},
                log)
      | Raise e => Some (Uncaught e, log)
      end
    else if bool_decide (mode = lit "abstractive") then
      match Abstractive.abstractive_summary text (max_length request)
              (min_length request) log with
      | Some (result, log) =>
          Some (Respond
                  {| response_summary := Abstractive.summary result;
                     response_mode := "abstractive";
                     response_details :=
                       Some (AbstractiveDetails
                               (Abstractive.chunks result)
                               (Abstractive.chunk_summaries result)) |},
                log)
      | None => None
      end
    else
      Some (HTTPException 400 "Invalid mode. Use 'extractive' or 'abstractive'.", log).

(** [upload_and_summarize], given the uploaded file's content type and
    bytes. *)
Definition upload_and_summarize (content_type : option pystr) (data : list Byte.byte)
    (mode : pystr) (num_sentences max_length min_length : Z) (log : list pystr)
  : option (outcome SummarizeResponse * list pystr) :=
  if negb (bool_decide (content_type = Some (lit "application/pdf"))) then
    Some (HTTPException 400 "Only PDF uploads are supported for now.", log)
  else
    let text := extract_text_from_pdf_bytes data in
    if negb (truthy (strip text)) then
      Some (HTTPException 400 "No text could be extracted from the PDF.", log)
    else
      let request :=
        {| text := text; mode := mode; num_sentences := num_sentences;
           max_length := max_length; min_length := min_length |} in
      summarize request log.

End WithCollaborators.

End Api.

(** ** Stand-in collaborators

    Small exact-arithmetic collaborators that satisfy the contracts of
    [Backend]: scores are rationals, a sentence ends at a full stop, a
    sentence is embedded as its length, PageRank is replaced by the
    weighted degree.  [argsort] comes in two flavours that differ only in
    how equal keys are ordered; both sort, as NumPy's contract asks. *)

Module Toy.
Import TextCleaning Extractive Evaluation.

(** Pairs [(key, index)] ordered by key, equal keys by [tie] on indices. *)
Definition by_key (tie : nat -> nat -> Prop) (a b : Q * nat) : Prop :=
  (a.1 < b.1)%Q \/ ((a.1 == b.1)%Q /\ tie a.2 b.2).

#[global] Instance Qlt_dec : RelDecision Qlt :=
  fun x y => decide (Qnum x * QDen y < Qnum y * QDen x)%Z.

#[global] Instance Qeq_dec : RelDecision Qeq :=
  fun x y => decide (Qnum x * QDen y = Qnum y * QDen x)%Z.

#[global] Instance by_key_dec tie `{!RelDecision tie} : RelDecision (by_key tie).
Proof. intros a b. unfold by_key. apply _. Defined.

Definition toy_argsort (tie : nat -> nat -> Prop) `{!RelDecision tie}
    (v : list Q) : list nat :=
  (merge_sort (by_key tie) (zip v (seq 0 (length v)))).*2.

(** A sentence ends at a full stop; [cur] is the sentence being read,
    last character first. *)
Fixpoint split_sentences (cur : pystr) (text : pystr) : list pystr :=
  match text with
  | [] => match cur with [] => [] | _ => [rev cur] end
  | c :: rest =>
      if (c =? 46)%N then rev (c :: cur) :: split_sentences [] rest
      else split_sentences (c :: cur) rest
  end.

Definition toy_encode (ss : list pystr) : result (list (list Q)) :=
  Ok (map (fun s => [inject_Z (Z.of_nat (length s))]) ss).

Definition toy_mean (E : list (list Q)) : list Q :=
  match E with
  | [] => []
  | e :: E' =>
      map (fun x => x / inject_Z (Z.of_nat (length E)))%Q
          (foldl (zip_with Qplus) e E')
  end.

Definition toy_cos_sim (E : list (list Q)) (c : list Q) : list Q :=
  map (fun e => foldl Qplus 0%Q (zip_with Qmult e c)) E.

Definition toy_pagerank (M : list (list Q)) : result (list (nat * Q)) :=
  Ok (imap (fun i row => (i, foldl Qplus 0%Q row)) M).

(** A stand-in scorer: every metric is 1.0 on identical texts and 0.0
    otherwise. *)
Definition exact_match (use_stemmer : bool) (ref cand : pystr) : gmap string Score :=
  let s := if bool_decide (ref = cand)
           then {| precision := 1; recall := 1; fmeasure := 1 |}
           else {| precision := 0; recall := 0; fmeasure := 0 |} in
  <["rouge1" := s]> (<["rouge2" := s]> (<["rougeL" := s]> ∅)).

(** A stand-in generative model: the summary is the first [max_length]
    characters of its input. *)
Definition truncate (input : pystr) (max_length min_length : Z) : pystr :=
  take (Z.to_nat max_length) input.

End Toy.

(** * Facts about the embedding *)

(** ** The normalizer *)

Module TextCleaningFacts.
Import TextCleaning.

Lemma is_space_SPACE : is_space SPACE = true.
Proof. reflexivity. Qed.

Lemma is_control_SPACE : is_control SPACE = false.
Proof. reflexivity. Qed.

Lemma split_on_cons_inv sep text : exists w ws, split_on sep text = w :: ws.
Proof.
  destruct text as [|c rest]; simpl; [by eauto|].
  destruct (sep c); [by eauto|].
  destruct (split_on sep rest); eauto.
Qed.

Lemma split_on_sub_class text :
  split_on is_space (sub_class is_control text) = split_on blank text.
Proof.
  induction text as [|c rest IH]; [done|].
  simpl. unfold blank at 1. destruct (is_control c) eqn:Hc; simpl.
  - by rewrite IH.
  - rewrite IH. done.
Qed.

Lemma lstrip_app a b :
  lstrip (a ++ b) = match lstrip a with [] => lstrip b | r => r ++ b end.
Proof.
  induction a as [|c a IH]; [done|].
  simpl. destruct (is_space c); [exact IH|done].
Qed.

Lemma rstrip_nil : rstrip [] = [].
Proof. done. Qed.

Lemma rstrip_cons c text :
  rstrip (c :: text) =
  match rstrip text with
  | [] => if is_space c then [] else [c]
  | r => c :: r
  end.
Proof.
  unfold rstrip. simpl. rewrite lstrip_app.
  destruct (lstrip (rev text)) as [|d l] eqn:Hl; simpl.
  - by destruct (is_space c).
  - rewrite rev_app_distr. simpl.
    destruct (rev l ++ [d]) eqn:Hr; [|done].
    by destruct (rev l).
Qed.

Lemma lstrip_sub_space_runs_true text :
  lstrip (sub_space_runs true text) = sub_space_runs true text.
Proof.
  induction text as [|c rest IH]; [done|].
  simpl. destruct (is_space c) eqn:Hc; [done|].
  simpl. by rewrite Hc.
Qed.

Lemma lstrip_sub_space_runs text :
  lstrip (sub_space_runs false text) = sub_space_runs true text.
Proof.
  destruct text as [|c rest]; [done|].
  simpl. destruct (is_space c) eqn:Hc; simpl.
  - apply lstrip_sub_space_runs_true.
  - by rewrite Hc.
Qed.

Lemma join_cons sep p rest :
  join sep (p :: rest) = p ++ match rest with [] => [] | _ => sep ++ join sep rest end.
Proof. destruct rest; simpl; [by rewrite app_nil_r|done]. Qed.

Lemma join_nil_inv sep ws :
  Forall (fun w => w <> []) ws -> join sep ws = [] -> ws = [].
Proof.
  intros Hne Hj. destruct ws as [|w ws]; [done|].
  rewrite join_cons in Hj. apply Forall_cons in Hne as [Hw _].
  destruct w; [done|discriminate].
Qed.


Definition pieces_tail (text : pystr) : pystr :=
  match split_on is_space text with
  | w :: ws =>
      w ++ match filter (fun w => w <> []) ws with
           | [] => []
           | ws' => SPACE :: join [SPACE] ws'
           end
  | [] => []
  end.

Lemma filter_nonempty_Forall (ws : list pystr) :
  Forall (fun w => w <> []) (filter (fun w => w <> []) ws).
Proof. apply Forall_forall. intros w Hw. by apply list_elem_of_filter in Hw as [? _]. Qed.

Lemma rstrip_sub_space_runs text :
  rstrip (sub_space_runs true text)
    = join [SPACE] (filter (fun w => w <> []) (split_on is_space text))
  /\ forall c, is_space c = false ->
       rstrip (c :: sub_space_runs false text) = c :: pieces_tail text.
Proof.
  induction text as [|d rest [IH1 IH2]].
  - split; [done|]. intros c Hc. rewrite rstrip_cons. simpl. by rewrite Hc.
  - unfold pieces_tail in *. simpl.
    destruct (split_on_cons_inv is_space rest) as (w & ws & Hs).
    rewrite Hs in *. destruct (is_space d) eqn:Hd.
    + split.
      * rewrite IH1. symmetry. rewrite filter_cons. by case_decide.
      * intros c Hc. rewrite rstrip_cons, rstrip_cons, IH1, is_space_SPACE.
        simpl.
        destruct (filter (fun w => w <> []) (w :: ws)) as [|w' ws'] eqn:Hf.
        { simpl. by rewrite Hc. }
        change (match ws' with [] => w' | _ :: _ => w' ++ SPACE :: join [SPACE] ws' end)
          with (join [SPACE] (w' :: ws')).
        destruct (join [SPACE] (w' :: ws')) eqn:Hj; [|done].
        apply join_nil_inv in Hj; [done|].
        rewrite <- Hf. apply filter_nonempty_Forall.
    + split.
      * rewrite (IH2 d Hd). rewrite filter_cons_True by done.
        rewrite join_cons. simpl. f_equal. f_equal.
        destruct (filter (fun w => w <> []) ws); reflexivity.
      * intros c Hc. rewrite rstrip_cons, (IH2 d Hd). done.
Qed.

Lemma basic_clean_unwords text : basic_clean text = unwords (words text).
Proof.
  unfold basic_clean, normalize_whitespace, strip, unwords, words.
  rewrite lstrip_sub_space_runs.
  rewrite (proj1 (rstrip_sub_space_runs _)).
  by rewrite split_on_sub_class.
Qed.

End TextCleaningFacts.

(** ** Lists, slices and sorting *)

Module ListFacts.
Import Extractive.

Lemma getitem_Some {A : Type} (l : list A) i x :
  l !! i = Some x -> getitem l i = Ok x.
Proof. unfold getitem. by intros ->. Qed.

Lemma map_result_getitem {A : Type} (l : list A) (idx : list nat) :
  Forall (fun i => i < length l) idx ->
  exists xs, map_result (getitem l) idx = Ok xs
             /\ Forall2 (fun i x => l !! i = Some x) idx xs.
Proof.
  induction 1 as [|i idx Hi _ (xs & Hxs & Hall)].
  - exists []. split; [done|constructor].
  - apply lookup_lt_is_Some_2 in Hi as [x Hx].
    exists (x :: xs). split.
    + simpl. rewrite (getitem_Some _ _ _ Hx). simpl. by rewrite Hxs.
    + by constructor.
Qed.

Lemma slice_to_length {A : Type} (l : list A) (k : Z) :
  length (slice_to l (Z.min k (Z.of_nat (length l))))
  = Z.to_nat (if (k <? 0)%Z then Z.of_nat (length l) + k
              else Z.min k (Z.of_nat (length l))).
Proof.
  unfold slice_to.
  destruct (Z.ltb_spec k 0) as [Hk|Hk].
  - rewrite Z.min_l by lia.
    destruct (Z.ltb_spec k 0); [|lia].
    rewrite length_take. lia.
  - destruct (Z.ltb_spec (Z.min k (Z.of_nat (length l))) 0); [lia|].
    rewrite length_take. lia.
Qed.

Lemma slice_to_prefix {A : Type} (l : list A) (k : Z) :
  exists n, slice_to l k = take n l.
Proof. unfold slice_to. destruct (k <? 0)%Z; eauto. Qed.

Lemma sorted_perm l : sorted l ≡ₚ l.
Proof. apply merge_sort_Permutation. Qed.

Lemma sorted_Sorted l : Sorted Nat.le (sorted l).
Proof. apply (Sorted_merge_sort Nat.le). Qed.

Lemma Sorted_le_NoDup_lt l :
  StronglySorted Nat.le l -> NoDup l -> StronglySorted lt l.
Proof.
  induction 1 as [|x l Hs IH Hall]; intros Hnd; [constructor|].
  apply NoDup_cons in Hnd as [Hx Hnd].
  constructor; [by apply IH|].
  apply Forall_forall. intros y Hy.
  assert (x <= y) by (eapply Forall_forall in Hall; eauto).
  assert (x <> y) by (intros ->; done).
  lia.
Qed.

Lemma sorted_strict l : NoDup l -> StronglySorted lt (sorted l).
Proof.
  intros Hnd. apply Sorted_le_NoDup_lt.
  - apply Sorted_StronglySorted; [|apply sorted_Sorted].
    intros x y z. unfold Nat.le. lia.
  - by rewrite sorted_perm.
Qed.

Lemma StronglySorted_lookup_lt {A : Type} (R : relation A) (l : list A) p q a b :
  StronglySorted R l -> p < q -> l !! p = Some a -> l !! q = Some b -> R a b.
Proof.
  intros Hs Hpq Hp Hq. rewrite <- (take_drop q l) in Hs.
  eapply StronglySorted_app_1_elem_of; [exact Hs| |].
  - apply list_elem_of_lookup. exists p. by rewrite lookup_take_lt.
  - apply list_elem_of_lookup. exists 0. by rewrite lookup_drop, Nat.add_0_r.
Qed.

End ListFacts.

(** ** The selector *)

Module SelectorFacts.
Import TextCleaning Extractive ListFacts.

Section WithBackend.
Context `{B : Backend}.

(** The indices the selector keeps, before they are put in order. *)
Definition top_ranked (v : list score) (num_sentences : Z) (n : nat) : list nat :=
  slice_to (argsort (map neg v)) (Z.min num_sentences (Z.of_nat n)).

Lemma ranked_bound (v : list score) :
  Forall (fun i => i < length v) (argsort (map neg v)).
Proof.
  apply Forall_forall. intros i Hi.
  rewrite argsort_perm, length_map in Hi.
  apply elem_of_seq in Hi. lia.
Qed.

Lemma ranked_NoDup (v : list score) : NoDup (argsort (map neg v)).
Proof. rewrite argsort_perm. apply NoDup_seq. Qed.

Lemma ranked_length (v : list score) : length (argsort (map neg v)) = length v.
Proof. by rewrite argsort_perm, length_seq, length_map. Qed.

Lemma top_ranked_bound v k n : Forall (fun i => i < length v) (top_ranked v k n).
Proof.
  unfold top_ranked. destruct (slice_to_prefix (argsort (map neg v)) (Z.min k (Z.of_nat n))) as [m ->].
  apply Forall_take, ranked_bound.
Qed.

Lemma top_ranked_NoDup v k n : NoDup (top_ranked v k n).
Proof.
  unfold top_ranked. destruct (slice_to_prefix (argsort (map neg v)) (Z.min k (Z.of_nat n))) as [m ->].
  eapply sublist_NoDup; [apply ranked_NoDup|apply sublist_take].
Qed.

(** Whatever is kept scores at least as high as whatever is left out. *)
Lemma top_ranked_best v k n i j x y :
  i ∈ top_ranked v k n -> j ∉ top_ranked v k n ->
  v !! i = Some x -> v !! j = Some y -> score_le y x.
Proof.
  unfold top_ranked.
  destruct (slice_to_prefix (argsort (map neg v)) (Z.min k (Z.of_nat n))) as [m ->].
  intros Hi Hj Hx Hy.
  apply list_elem_of_lookup in Hi as [p Hp].
  apply lookup_take_Some in Hp as [Hp Hpm].
  assert (j ∈ argsort (map neg v)) as Hjr.
  { rewrite argsort_perm, length_map. apply elem_of_seq.
    apply lookup_lt_Some in Hy. lia. }
  apply list_elem_of_lookup in Hjr as [q Hq].
  assert (m <= q) as Hmq.
  { destruct (decide (m <= q)); [done|]. exfalso. apply Hj.
    apply list_elem_of_lookup. exists q. rewrite lookup_take_lt by lia. done. }
  apply neg_le.
  apply (argsort_sorted (map neg v) p q i j); [lia|done|done| |].
  - by rewrite list_lookup_fmap, Hx.
  - by rewrite list_lookup_fmap, Hy.
Qed.

(** What [select] returns, stage by stage. *)
Lemma select_ok (sentences : list pystr) (v : list score) (k : Z) :
  length v = length sentences ->
  exists r, select sentences v k = Ok r
    /\ indices r = sorted (top_ranked v k (length sentences))
    /\ Forall2 (fun i s => sentences !! i = Some s) (indices r) (selected_sentences r)
    /\ Forall2 (fun i x => v !! i = Some x) (indices r) (scores r)
    /\ summary r = join [SPACE] (selected_sentences r).
Proof.
  intros Hlen. unfold select. fold (top_ranked v k (length sentences)).
  set (idx := sorted (top_ranked v k (length sentences))).
  assert (Forall (fun i => i < length v) idx) as Hb.
  { unfold idx. rewrite sorted_perm. apply top_ranked_bound. }
  destruct (map_result_getitem sentences idx) as (ss & -> & Hss).
  { by rewrite <- Hlen. }
  destruct (map_result_getitem v idx) as (xs & -> & Hxs); [done|].
  simpl. eexists. split; [done|]. simpl. done.
Qed.

End WithBackend.
End SelectorFacts.

(** ** The two rankers *)

Module RankerFacts.
Import TextCleaning Extractive ListFacts SelectorFacts.

Lemma map_result_length {A C : Type} (f : A -> result C) l ys :
  map_result f l = Ok ys -> length ys = length l.
Proof.
  revert ys. induction l as [|x l IH]; intros ys; simpl.
  - by intros [= <-].
  - destruct (f x) as [y|]; simpl; [|done].
    destruct (map_result f l) as [ys'|]; simpl; [|done].
    intros [= <-]. simpl. f_equal. by apply IH.
Qed.

Section WithBackend.
Context `{B : Backend}.

Lemma centroid_scores_length sentences v :
  centroid_scores sentences = Ok v -> length v = length sentences.
Proof.
  unfold centroid_scores.
  destruct (encode sentences) as [E|] eqn:HE; simpl; [|done].
  apply encode_length in HE.
  pose proof (cos_sim_length E (tensor_mean E)) as Hc.
  unfold squeeze.
  destruct (cos_sim E (tensor_mean E)) as [|x [|y col]]; intros [= <-];
    by rewrite <- HE, <- Hc.
Qed.

Lemma build_similarity_matrix_rows sentences M :
  _build_similarity_matrix sentences = Ok M -> length M = length sentences.
Proof.
  unfold _build_similarity_matrix.
  destruct (encode sentences) as [E|] eqn:HE; simpl; [|done].
  apply encode_length in HE. intros [= <-].
  unfold fill_diagonal, dot_transpose, divide_rows, row_norms.
  rewrite length_imap, length_map, length_zip_with, length_map. lia.
Qed.

Lemma dict_get_keys (d : list (nat * score)) :
  exists v, map_result (dict_get d) (d.*1) = Ok v.
Proof.
  assert (forall ks, ks ⊆ d.*1 -> exists v, map_result (dict_get d) ks = Ok v) as H.
  { induction ks as [|k ks IH]; intros Hsub; [by exists []|].
    destruct IH as [v Hv]; [set_solver|].
    assert (exists x, dict_get d k = Ok x) as [x Hx].
    { assert (k ∈ d.*1) as Hk by set_solver. clear -Hk.
      induction d as [|[k' x'] d IHd]; [by apply elem_of_nil in Hk|].
      simpl. destruct (Nat.eqb_spec k' k); [by eauto|].
      apply IHd. simpl in Hk. apply elem_of_cons in Hk as [?|?]; [congruence|done]. }
    exists (x :: v). simpl. rewrite Hx. simpl. by rewrite Hv. }
  by apply H.
Qed.

Lemma textrank_scores_length sentences v :
  textrank_scores sentences = Ok v -> length v = length sentences.
Proof.
  unfold textrank_scores.
  destruct (_build_similarity_matrix sentences) as [M|] eqn:HM; simpl; [|done].
  apply build_similarity_matrix_rows in HM.
  destruct (pagerank M) as [d|] eqn:Hd; simpl; [|done].
  apply pagerank_keys in Hd. intros Hv.
  apply map_result_length in Hv. by rewrite Hv, Hd, length_seq.
Qed.

(** The graph ranker raises only when the encoder or PageRank does. *)
Lemma textrank_scores_ok sentences M d :
  _build_similarity_matrix sentences = Ok M -> pagerank M = Ok d ->
  exists v, textrank_scores sentences = Ok v.
Proof.
  intros HM Hd. unfold textrank_scores. rewrite HM. simpl. rewrite Hd. simpl.
  apply dict_get_keys.
Qed.

End WithBackend.
End RankerFacts.

(** ** The stand-in collaborators meet the contracts *)

Module ToyFacts.
Import TextCleaning Extractive Toy.


Lemma by_key_total tie : Total tie -> Total (by_key tie).
Proof.
  intros Ht [x i] [y j]. unfold by_key. simpl.
  destruct (Q_dec x y) as [[?|?]|?]; [auto|auto|].
  destruct (Ht i j); [left|right]; right; split; auto. by symmetry.
Qed.

Lemma by_key_trans tie : Transitive tie -> Transitive (by_key tie).
Proof.
  intros Ht [x i] [y j] [z k]. unfold by_key. simpl.
  intros [Hxy|[Hxy Hij]] [Hyz|[Hyz Hjk]].
  - left. by eapply Qlt_trans.
  - left. by rewrite <- Hyz.
  - left. by rewrite Hxy.
  - right. split; [by rewrite Hxy|]. by eapply Ht.
Qed.

Lemma by_key_le tie a b : by_key tie a b -> (a.1 <= b.1)%Q.
Proof. intros [?|[-> _]]; [by apply Qlt_le_weak|apply Qle_refl]. Qed.

Section Argsort.
Context (tie : nat -> nat -> Prop) `{!RelDecision tie, !Total tie, !Transitive tie}.

Lemma snd_zip_seq (v : list Q) : (zip v (seq 0 (length v))).*2 = seq 0 (length v).
Proof. apply snd_zip. by rewrite length_seq. Qed.

Lemma toy_argsort_perm v : toy_argsort tie v ≡ₚ seq 0 (length v).
Proof.
  unfold toy_argsort. rewrite merge_sort_Permutation. by rewrite snd_zip_seq.
Qed.

Lemma zip_seq_lookup (v : list Q) x i :
  (x, i) ∈ zip v (seq 0 (length v)) -> v !! i = Some x.
Proof.
  intros H. apply list_elem_of_lookup in H as [p Hp].
  apply lookup_zip_with_Some in Hp as (x' & i' & [= <- <-] & Hx & Hi).
  apply lookup_seq in Hi as [-> _]. done.
Qed.

Lemma toy_argsort_sorted v p q i j x y :
  p <= q -> toy_argsort tie v !! p = Some i -> toy_argsort tie v !! q = Some j ->
  v !! i = Some x -> v !! j = Some y -> (x <= y)%Q.
Proof.
  unfold toy_argsort. intros Hpq Hp Hq Hx Hy.
  rewrite list_lookup_fmap in Hp, Hq.
  destruct (merge_sort _ _ !! p) as [[x' i']|] eqn:Hp'; [|done].
  destruct (merge_sort _ _ !! q) as [[y' j']|] eqn:Hq'; [|done].
  simpl in *. simplify_eq.
  assert (v !! i = Some x') as Hx'.
  { apply zip_seq_lookup. rewrite <- (merge_sort_Permutation (by_key tie)).
    by eapply list_elem_of_lookup_2. }
  assert (v !! j = Some y') as Hy'.
  { apply zip_seq_lookup. rewrite <- (merge_sort_Permutation (by_key tie)).
    by eapply list_elem_of_lookup_2. }
  simplify_eq.
  destruct (decide (p = q)) as [->|Hne]; [simplify_eq; apply Qle_refl|].
  pose proof (by_key_total tie _) as Htot.
  pose proof (by_key_trans tie _) as Htr.
  pose proof (StronglySorted_merge_sort (by_key tie) (zip v (seq 0 (length v)))) as Hs.
  apply (by_key_le tie (x, i) (y, j)).
  eapply (ListFacts.StronglySorted_lookup_lt (by_key tie)); [exact Hs| |exact Hp'|exact Hq'].
  lia.
Qed.

End Argsort.

Lemma Qopp_le_inv a b : (- a <= - b)%Q -> (b <= a)%Q.
Proof.
  intros H. apply Qopp_le_compat in H. by rewrite !Qopp_involutive in H.
Qed.

Lemma imap_keys {A C : Type} (g : nat -> A -> nat * C) (f : nat -> nat) (M : list A) :
  (forall i row, (g i row).1 = f i) ->
  (imap g M).*1 = map f (seq 0 (length M)).
Proof.
  revert g f. induction M as [|row M IH]; intros g f Hg; [done|].
  change (imap g (row :: M)) with (g 0 row :: imap (g ∘ S) M).
  rewrite fmap_cons, Hg, (IH (g ∘ S) (f ∘ S)) by (intros i r; apply Hg).
  change (length (row :: M)) with (S (length M)).
  rewrite <- cons_seq, <- fmap_S_seq. simpl. f_equal.
  by rewrite <- list_fmap_compose.
Qed.

Lemma toy_pagerank_keys M d : toy_pagerank M = Ok d -> d.*1 = seq 0 (length M).
Proof.
  intros [= <-]. rewrite (imap_keys _ id) by done. apply list_fmap_id.
Qed.

End ToyFacts.

Module ToyBackend.
Import TextCleaning Extractive Toy ToyFacts.

Lemma toy_encode_length ss E : toy_encode ss = Ok E -> length E = length ss.
Proof. intros [= <-]. apply length_map. Qed.

Lemma toy_cos_sim_length E c : length (toy_cos_sim E c) = length E.
Proof. apply length_map. Qed.

Definition toy_backend (tie : nat -> nat -> Prop)
    `{!RelDecision tie, !Total tie, !Transitive tie} : Backend :=
  {| score := Q;
     fzero := 0%Q;
     eps := (1 # 100000000)%Q;
     fadd := Qplus;
     fmul := Qmult;
     fdiv := Qdiv;
     fsqrt := fun x => x;
     neg := Qopp;
     score_le := Qle;
     neg_le := Qopp_le_inv;
     argsort := toy_argsort tie;
     argsort_perm := toy_argsort_perm tie;
     argsort_sorted := toy_argsort_sorted tie;
     sent_tokenize := split_sentences [];
     sent_tokenize_empty := eq_refl;
     encode := toy_encode;
     encode_length := toy_encode_length;
     tensor_mean := toy_mean;
     cos_sim := toy_cos_sim;
     cos_sim_length := toy_cos_sim_length;
     pagerank := toy_pagerank;
     pagerank_keys := toy_pagerank_keys |}.

#[local] Instance ge_total : Total ge.
Proof. intros x y. unfold ge. lia. Qed.

#[local] Instance ge_trans : Transitive ge.
Proof. intros x y z. unfold ge. lia. Qed.

#[local] Instance ge_dec : RelDecision ge := fun x y => decide (y <= x).

(** Equal scores in ascending index order (a stable sort). *)
Definition ties_first : Backend := toy_backend le.

(** Equal scores in descending index order. *)
Definition ties_last : Backend := toy_backend ge.

End ToyBackend.

(** ** The summarizers *)

Module SummarizerFacts.
Import TextCleaning TextCleaningFacts Extractive ListFacts SelectorFacts RankerFacts.

Lemma lstrip_all_space text :
  forallb is_space (lstrip text) = true -> lstrip text = [].
Proof.
  induction text as [|c rest IH]; [done|].
  simpl. destruct (is_space c) eqn:Hc; [exact IH|].
  simpl. by rewrite Hc.
Qed.

Lemma forallb_rev {A : Type} (f : A -> bool) l : forallb f (rev l) = forallb f l.
Proof.
  induction l as [|x l IH]; [done|].
  simpl. rewrite forallb_app, IH. simpl. rewrite andb_true_r. apply andb_comm.
Qed.

Lemma basic_clean_all_space text :
  forallb is_space (basic_clean text) = true -> basic_clean text = [].
Proof.
  unfold basic_clean, normalize_whitespace, strip, rstrip.
  intros H. rewrite forallb_rev in H.
  apply lstrip_all_space in H. by rewrite H.
Qed.

Section WithBackend.
Context `{B : Backend}.

Lemma sentence_split_empty : sentence_split sent_tokenize [] = [].
Proof. unfold sentence_split. by rewrite sent_tokenize_empty. Qed.

Lemma centroid_nonempty text k :
  sentences_of text <> [] ->
  centroid_extractive_summary text k
  = centroid_scores (sentences_of text) ≫= fun v => select (sentences_of text) v k.
Proof.
  intros Hne. unfold centroid_extractive_summary. fold (sentences_of text).
  by rewrite bool_decide_eq_false_2.
Qed.

Lemma textrank_nonempty text k :
  sentences_of text <> [] ->
  textrank_extractive_summary text k
  = textrank_scores (sentences_of text) ≫= fun v => select (sentences_of text) v k.
Proof.
  intros Hne. unfold textrank_extractive_summary. fold (sentences_of text).
  by rewrite bool_decide_eq_false_2.
Qed.

Lemma centroid_empty text k :
  sentences_of text = [] -> centroid_extractive_summary text k = Ok empty_result.
Proof.
  intros He. unfold centroid_extractive_summary. fold (sentences_of text).
  by rewrite bool_decide_eq_true_2.
Qed.

Lemma textrank_empty text k :
  sentences_of text = [] -> textrank_extractive_summary text k = Ok empty_result.
Proof.
  intros He. unfold textrank_extractive_summary. fold (sentences_of text).
  by rewrite bool_decide_eq_true_2.
Qed.

Lemma select_has_length sentences v k :
  length v = length sentences -> (1 <= k)%Z ->
  exists r, select sentences v k = Ok r
    /\ has_length r (Z.to_nat (Z.min k (Z.of_nat (length sentences)))).
Proof.
  intros Hlen Hk.
  destruct (select_ok sentences v k Hlen) as (r & Hr & Hidx & Hss & Hxs & _).
  exists r. split; [done|].
  assert (length (indices r) = Z.to_nat (Z.min k (Z.of_nat (length sentences)))) as Hl.
  { rewrite Hidx, sorted_perm. unfold top_ranked.
    replace (length sentences) with (length (argsort (map neg v)))
      by (by rewrite ranked_length).
    rewrite slice_to_length. destruct (Z.ltb_spec k 0); [lia|done]. }
  unfold has_length.
  apply Forall2_length in Hss, Hxs. split_and!; congruence.
Qed.

Lemma select_zero sentences v :
  length v = length sentences -> select sentences v 0 = Ok empty_result.
Proof.
  intros Hlen.
  destruct (select_ok sentences v 0 Hlen) as (r & Hr & Hidx & Hss & Hxs & Hsum).
  rewrite Hr. f_equal.
  assert (indices r = []) as Hi.
  { rewrite Hidx. unfold top_ranked, slice_to.
    rewrite Z.min_l by lia. simpl. by rewrite take_0. }
  rewrite Hi in Hss, Hxs.
  apply Forall2_nil_inv_l in Hss, Hxs. rewrite Hss in Hsum.
  destruct r; simpl in *. by rewrite Hi, Hss, Hxs, Hsum.
Qed.

Lemma select_in_document_order sentences v k :
  length v = length sentences ->
  exists r, select sentences v k = Ok r /\ in_document_order sentences r.
Proof.
  intros Hlen.
  destruct (select_ok sentences v k Hlen) as (r & Hr & Hidx & Hss & Hxs & Hsum).
  exists r. split; [done|]. unfold in_document_order. split_and!; [| |done|done].
  - rewrite Hidx. apply sorted_strict, top_ranked_NoDup.
  - rewrite Hidx, sorted_perm, <- Hlen. apply top_ranked_bound.
Qed.

Lemma select_keeps_best sentences v k :
  length v = length sentences ->
  exists r, select sentences v k = Ok r /\ keeps_best v r.
Proof.
  intros Hlen.
  destruct (select_ok sentences v k Hlen) as (r & Hr & Hidx & Hss & Hxs & Hsum).
  exists r. split; [done|]. split; [done|].
  intros i j x y Hi Hj. rewrite Hidx in Hi, Hj. rewrite sorted_perm in Hi, Hj.
  by eapply top_ranked_best.
Qed.

End WithBackend.
End SummarizerFacts.

(** ** The chunker and the abstractive pipeline *)

Module AbstractiveFacts.
Import TextCleaning Abstractive.

Lemma chunk_loop_S fuel text max_chars overlap start acc :
  chunk_loop (S fuel) text max_chars overlap start acc
  = if (start <? len text)%Z then
      match (loop_body text max_chars overlap start).2 with
      | None => Some (acc ++ [(loop_body text max_chars overlap start).1])
      | Some start' =>
          chunk_loop fuel text max_chars overlap start'
                     (acc ++ [(loop_body text max_chars overlap start).1])
      end
    else Some acc.
Proof. reflexivity. Qed.

(** One pass of the loop with [0 <= overlap < max_chars], from a [start]
    inside the text: it breaks, or it moves [start] forward by
    [max_chars - overlap] and stays inside the text. *)
Lemma loop_body_progress text max_chars overlap start :
  (0 <= overlap < max_chars)%Z -> (0 <= start < len text)%Z ->
  (loop_body text max_chars overlap start).2 = None
  \/ exists start', (loop_body text max_chars overlap start).2 = Some start'
       /\ (start' = start + (max_chars - overlap))%Z
       /\ (start < start' < len text)%Z.
Proof.
  intros Ho Hs. unfold loop_body. simpl.
  destruct (Z.eqb_spec (Z.min (len text) (start + max_chars)) (len text)) as [He|Hne];
    [by left|right].
  eexists. split; [done|]. lia.
Qed.

(** With enough fuel the loop returns, and what it returns does not depend
    on the fuel. *)
Lemma chunk_loop_returns text max_chars overlap (m : nat) :
  (0 <= overlap < max_chars)%Z ->
  forall start acc, (0 <= start)%Z -> (len text - start <= Z.of_nat m)%Z ->
  exists out,
    (forall fuel, m < fuel ->
       chunk_loop fuel text max_chars overlap start acc = Some out)
    /\ length acc <= length out <= length acc + S m
    /\ ((start < len text)%Z -> length acc < length out).
Proof.
  intros Ho. induction m as [|m IH]; intros start acc Hs Hm.
  - exists acc. split_and!; [|lia|lia|lia]. intros [|fuel] Hf; [lia|].
    rewrite chunk_loop_S. destruct (Z.ltb_spec start (len text)); [lia|done].
  - destruct (Z.ltb_spec start (len text)) as [Hlt|Hge].
    + destruct (loop_body_progress text max_chars overlap start Ho ltac:(lia))
        as [Hn|(start' & Hn & -> & Hin)].
      * exists (acc ++ [(loop_body text max_chars overlap start).1]).
        split_and!; [|rewrite length_app; simpl; lia..].
        intros [|fuel] Hf; [lia|]. rewrite chunk_loop_S, Hn.
        by destruct (Z.ltb_spec start (len text)); [|lia].
      * destruct (IH (start + (max_chars - overlap))%Z
                     (acc ++ [(loop_body text max_chars overlap start).1]))
          as (out & Hout & Hlen & _); [lia|lia|].
        rewrite length_app in Hlen; simpl in Hlen.
        exists out. split_and!; [|lia..].
        intros [|fuel] Hf; [lia|]. rewrite chunk_loop_S, Hn.
        destruct (Z.ltb_spec start (len text)); [|lia].
        apply Hout. lia.
    + exists acc. split_and!; [|lia..]. intros [|fuel] Hf; [lia|].
      rewrite chunk_loop_S. destruct (Z.ltb_spec start (len text)); [lia|done].
Qed.

Lemma chunk_text_short fuel text max_chars overlap :
  (len text <= max_chars)%Z -> _chunk_text fuel text max_chars overlap = Some [text].
Proof.
  intros H. unfold _chunk_text. by destruct (Z.leb_spec (len text) max_chars); [|lia].
Qed.

(** With [0 <= overlap < max_chars], [_chunk_text] returns once its fuel
    exceeds the length of the text. *)
Lemma chunk_text_returns text max_chars overlap :
  (0 <= overlap < max_chars)%Z ->
  exists chunks,
    (forall fuel, length text < fuel ->
       _chunk_text fuel text max_chars overlap = Some chunks)
    /\ 1 <= length chunks <= S (length text).
Proof.
  intros Ho. unfold _chunk_text.
  destruct (Z.leb_spec (len text) max_chars) as [Hle|Hgt].
  - exists [text]. split; [done|simpl; lia].
  - destruct (chunk_loop_returns text max_chars overlap (length text) Ho 0 [])
      as (out & Hout & Hlen & Hpos); [lia|unfold len; lia|].
    exists out. split; [exact Hout|]. simpl in *.
    specialize (Hpos ltac:(lia)). lia.
Qed.

End AbstractiveFacts.

(** ** The ROUGE evaluator *)

Module EvaluationFacts.
Import Evaluation.

(** One metric's entry of [agg_scores]. *)
Definition fields_of (a : Score) : gmap string float :=
  <["precision" := precision a]>
    (<["recall" := recall a]> (<["fmeasure" := fmeasure a]> ∅)).

(** [agg_scores] holding [a1], [a2] and [aL] for the three metrics. *)
Definition agg_of (a1 a2 aL : Score) : gmap string (gmap string float) :=
  <["rouge1" := fields_of a1]>
    (<["rouge2" := fields_of a2]> (<["rougeL" := fields_of aL]> ∅)).

Definition score_add (a s : Score) : Score :=
  {| precision := PrimFloat.add (precision a) (precision s);
     recall := PrimFloat.add (recall a) (recall s);
     fmeasure := PrimFloat.add (fmeasure a) (fmeasure s) |}.

Definition score_div (a : Score) (d : float) : Score :=
  {| precision := PrimFloat.div (precision a) d;
     recall := PrimFloat.div (recall a) d;
     fmeasure := PrimFloat.div (fmeasure a) d |}.

Definition score_zero : Score := {| precision := 0; recall := 0; fmeasure := 0 |}.

Lemma bind_Ok {A C : Type} (a : A) (k : A -> result C) : (Ok a ≫= k) = k a.
Proof. reflexivity. Qed.

Lemma foldl_score_add a l :
  foldl score_add a l
  = {| precision := foldl PrimFloat.add (precision a) (map precision l);
       recall := foldl PrimFloat.add (recall a) (map recall l);
       fmeasure := foldl PrimFloat.add (fmeasure a) (map fmeasure l) |}.
Proof.
  revert a. induction l as [|s l IH]; intros a; [by destruct a|].
  simpl. by rewrite IH.
Qed.

Lemma agg_of_lookup (F : string -> Score) key :
  key ∈ rouge_types ->
  agg_of (F "rouge1") (F "rouge2") (F "rougeL") !! key = Some (fields_of (F key)).
Proof.
  unfold rouge_types. intros Hk.
  repeat (apply elem_of_cons in Hk as [->|Hk]; [reflexivity|]).
  by apply elem_of_nil in Hk.
Qed.

Lemma fields_of_lookup a :
  fields_of a !! "precision" = Some (precision a)
  /\ fields_of a !! "recall" = Some (recall a)
  /\ fields_of a !! "fmeasure" = Some (fmeasure a).
Proof. by split_and!. Qed.

Section WithScorer.
Context `{R : RougeScorer}.

(** The body of the loop over the pairs. *)
Definition accumulate (use_stemmer : bool)
    (agg_scores : gmap string (gmap string float)) (p : pystr * pystr)
  : result (gmap string (gmap string float)) :=
  let '(ref, cand) := p in
  let scores := scorer_score use_stemmer ref cand in
  for_each (fun agg_scores key =>
    s ← dict_lookup scores key;
    agg_scores ← add_to agg_scores key "precision" (precision s);
    agg_scores ← add_to agg_scores key "recall" (recall s);
    add_to agg_scores key "fmeasure" (fmeasure s))
    rouge_types agg_scores.

(** The body of the final loop over the metrics. *)
Definition average (n : nat) (agg_scores : gmap string (gmap string float))
    (key : string) : result (gmap string (gmap string float)) :=
  agg_scores ← div_by agg_scores key "precision" n;
  agg_scores ← div_by agg_scores key "recall" n;
  div_by agg_scores key "fmeasure" n.

Lemma compute_rouge_unfold references candidates use_stemmer :
  compute_rouge references candidates use_stemmer
  = if bool_decide (length references ≠ length candidates) then Raise ValueError
    else
      agg ← for_each (accumulate use_stemmer) (zip references candidates)
                      (agg_of score_zero score_zero score_zero);
      agg ← for_each (average (length references)) rouge_types agg;
      Ok agg.
Proof. reflexivity. Qed.

Lemma pair_score_lookup use_stemmer key ref cand :
  key ∈ rouge_types ->
  scorer_score use_stemmer ref cand !! key
  = Some (pair_score use_stemmer key (ref, cand)).
Proof.
  intros Hk. unfold pair_score. simpl.
  by destruct (scorer_score_keys use_stemmer ref cand key Hk) as [s ->].
Qed.

Lemma accumulate_agg use_stemmer a1 a2 aL p :
  accumulate use_stemmer (agg_of a1 a2 aL) p
  = Ok (agg_of (score_add a1 (pair_score use_stemmer "rouge1" p))
               (score_add a2 (pair_score use_stemmer "rouge2" p))
               (score_add aL (pair_score use_stemmer "rougeL" p))).
Proof.
  destruct p as [ref cand]. unfold accumulate, rouge_types, for_each, dict_lookup.
  rewrite !pair_score_lookup by (unfold rouge_types; set_solver).
  reflexivity.
Qed.

Lemma accumulate_all use_stemmer pairs a1 a2 aL :
  for_each (accumulate use_stemmer) pairs (agg_of a1 a2 aL)
  = Ok (agg_of (foldl score_add a1 (map (pair_score use_stemmer "rouge1") pairs))
               (foldl score_add a2 (map (pair_score use_stemmer "rouge2") pairs))
               (foldl score_add aL (map (pair_score use_stemmer "rougeL") pairs))).
Proof.
  revert a1 a2 aL. induction pairs as [|p pairs IH]; intros a1 a2 aL; [done|].
  simpl. rewrite accumulate_agg. simpl. apply IH.
Qed.

Lemma average_all n a1 a2 aL :
  n <> 0 ->
  for_each (average n) rouge_types (agg_of a1 a2 aL)
  = Ok (agg_of (score_div a1 (float_of_len n)) (score_div a2 (float_of_len n))
               (score_div aL (float_of_len n))).
Proof.
  intros Hn. destruct n as [|n]; [done|]. reflexivity.
Qed.

Lemma average_zero a1 a2 aL :
  for_each (average 0) rouge_types (agg_of a1 a2 aL) = Raise ZeroDivisionError.
Proof. reflexivity. Qed.

End WithScorer.
End EvaluationFacts.

(** * The normalizer against its specification *)

Module TextCleaningSpec.
Import TextCleaning TextCleaningFacts.

Lemma split_on_pieces sep text :
  Forall (Forall (fun c => sep c = false)) (split_on sep text).
Proof.
  induction text as [|c rest IH]; simpl.
  - by repeat constructor.
  - destruct (sep c) eqn:Hc; [by constructor|].
    destruct (split_on sep rest) as [|w ws]; [by repeat constructor|].
    apply Forall_cons in IH as [Hw Hws]. by repeat constructor.
Qed.

Lemma concat_split_on sep text :
  concat (split_on sep text) = filter (fun c => sep c = false) text.
Proof.
  induction text as [|c rest IH]; [done|].
  simpl. rewrite filter_cons. destruct (sep c) eqn:Hc.
  - rewrite decide_False by done. done.
  - rewrite decide_True by done. rewrite <- IH.
    by destruct (split_on sep rest).
Qed.

Lemma concat_filter_nonempty (ws : list pystr) :
  concat (filter (fun w => w <> []) ws) = concat ws.
Proof.
  induction ws as [|w ws IH]; [done|].
  rewrite filter_cons. case_decide as Hw; simpl; [by f_equal|].
  subst w. exact IH.
Qed.

Lemma elem_of_join sep ws c :
  c ∈ join sep ws -> c ∈ sep \/ exists w, w ∈ ws /\ c ∈ w.
Proof.
  induction ws as [|w ws IH]; [by intros ?%elem_of_nil|].
  rewrite join_cons. intros [Hc|Hc]%elem_of_app.
  - right. exists w. split; [by left|done].
  - destruct ws as [|w' ws']; [by apply elem_of_nil in Hc|].
    apply elem_of_app in Hc as [Hc|Hc]; [by left|].
    destruct (IH Hc) as [?|(w0 & Hw0 & Hcw)]; [by left|].
    right. exists w0. split; [by right|done].
Qed.

(** C5.  The normalizer is a total function that maps the empty string to
    the empty string and any text to its words joined by single ASCII
    spaces, where a word is a maximal run of characters that are neither
    whitespace nor one of the control characters 0x00-0x08, 0x0B-0x0C,
    0x0E-0x1F, 0x7F.  So each such control character counts as one space,
    every run of separators between two words collapses to one space, and
    nothing but words stands at either end: the output contains no control
    character of the class and no whitespace other than the single spaces
    between words. *)
Theorem basic_clean_normalizes :
  basic_clean [] = []
  /\ forall text,
       basic_clean text = unwords (words text)
       /\ Forall (fun w => w <> [] /\ Forall (fun c => blank c = false) w) (words text)
       /\ concat (words text) = filter (fun c => blank c = false) text
       /\ Forall (fun c => is_control c = false /\ (is_space c = true -> c = SPACE))
                 (basic_clean text).
Proof.
  split; [done|]. intros text.
  assert (Forall (fun w => w <> [] /\ Forall (fun c => blank c = false) w) (words text))
    as Hwords.
  { unfold words. apply Forall_forall. intros w [Hne Hw]%list_elem_of_filter.
    split; [done|].
    pose proof (split_on_pieces blank text) as Hp.
    by eapply Forall_forall in Hp. }
  split_and!.
  - apply basic_clean_unwords.
  - exact Hwords.
  - unfold words. by rewrite concat_filter_nonempty, concat_split_on.
  - rewrite basic_clean_unwords. apply Forall_forall. intros c Hc.
    apply elem_of_join in Hc as [Hc|(w & Hw & Hc)].
    + apply list_elem_of_singleton in Hc as ->. done.
    + eapply Forall_forall in Hwords as [_ Hb]; [|exact Hw].
      eapply Forall_forall in Hb; [|exact Hc].
      unfold blank in Hb. apply orb_false_iff in Hb as [H1 H2].
      split; [done|]. by rewrite H2.
Qed.

End TextCleaningSpec.

(** * The extractive summarizers against their specification *)

Module ExtractiveSpec.
Import TextCleaning TextCleaningFacts Extractive ListFacts SelectorFacts RankerFacts SummarizerFacts Toy ToyFacts ToyBackend.

Definition pets_text : pystr :=
  lit "Dogs are loyal pets. Cats are independent. Both are common household animals.".

Section WithBackend.
Context `{B : Backend}.

(** C1 (amended).  When no sentence is split off the text, both
    summarizers return the empty result.  Otherwise, once the ranker has
    returned its scores, both return a result whose [indices], [scores]
    and [selected_sentences] all have length [min(k, N)] when [k >= 1],
    and the empty result when [k = 0]. *)
Theorem extractive_result_lengths (text : pystr) (k : Z) :
  (sentences_of text = [] ->
     centroid_extractive_summary text k = Ok empty_result
     /\ textrank_extractive_summary text k = Ok empty_result)
  /\ (forall v, centroid_scores (sentences_of text) = Ok v ->
       exists r, centroid_extractive_summary text k = Ok r
         /\ ((1 <= k)%Z ->
             has_length r (Z.to_nat (Z.min k (Z.of_nat (length (sentences_of text))))))
         /\ (k = 0%Z -> r = empty_result))
  /\ (forall v, textrank_scores (sentences_of text) = Ok v ->
       exists r, textrank_extractive_summary text k = Ok r
         /\ ((1 <= k)%Z ->
             has_length r (Z.to_nat (Z.min k (Z.of_nat (length (sentences_of text))))))
         /\ (k = 0%Z -> r = empty_result)).
Proof.
  assert (forall (f : pystr -> Z -> result ExtractiveSummaryResult)
                 (rank : list pystr -> result (list score)),
    (forall ss v, rank ss = Ok v -> length v = length ss) ->
    (sentences_of text = [] -> f text k = Ok empty_result) ->
    (sentences_of text <> [] ->
       f text k = rank (sentences_of text) ≫= fun v => select (sentences_of text) v k) ->
    forall v, rank (sentences_of text) = Ok v ->
      exists r, f text k = Ok r
        /\ ((1 <= k)%Z ->
            has_length r (Z.to_nat (Z.min k (Z.of_nat (length (sentences_of text))))))
        /\ (k = 0%Z -> r = empty_result)) as Hboth.
  { intros f rank Hlen Hempty Hne v Hv.
    destruct (decide (sentences_of text = [])) as [He|Hn].
    - exists empty_result. split; [by apply Hempty|]. split; [|done].
      intros Hk. rewrite He. simpl. rewrite Z.min_r by lia. done.
    - rewrite (Hne Hn), Hv. simpl. apply Hlen in Hv.
      destruct (select_ok (sentences_of text) v k Hv) as (r & Hr & _).
      exists r. split; [done|]. split.
      + intros Hk. destruct (select_has_length _ _ k Hv Hk) as (r' & Hr' & Hl).
        congruence.
      + intros ->. rewrite (select_zero _ _ Hv) in Hr. congruence. }
  split_and!.
  - intros He. split; [by apply centroid_empty|by apply textrank_empty].
  - apply (Hboth _ centroid_scores).
    + apply centroid_scores_length.
    + apply centroid_empty.
    + apply centroid_nonempty.
  - apply (Hboth _ textrank_scores).
    + apply textrank_scores_length.
    + apply textrank_empty.
    + apply textrank_nonempty.
Qed.


(** C3.  For a non-empty sentence list and [k >= 1], once the ranker has
    returned its scores, each summarizer returns indices that are strictly
    ascending and within [0 .. N-1], the sentences of the document at
    those indices in that order, and their join with single spaces as the
    summary. *)
Theorem extractive_document_order (text : pystr) (k : Z) :
  sentences_of text <> [] -> (1 <= k)%Z ->
  (forall v, centroid_scores (sentences_of text) = Ok v ->
     exists r, centroid_extractive_summary text k = Ok r
       /\ in_document_order (sentences_of text) r)
  /\ (forall v, textrank_scores (sentences_of text) = Ok v ->
     exists r, textrank_extractive_summary text k = Ok r
       /\ in_document_order (sentences_of text) r).
Proof.
  intros Hne _. split; intros v Hv.
  - rewrite (centroid_nonempty _ _ Hne), Hv. simpl.
    apply select_in_document_order. by apply centroid_scores_length.
  - rewrite (textrank_nonempty _ _ Hne), Hv. simpl.
    apply select_in_document_order. by apply textrank_scores_length.
Qed.

(** C6.  When the normalized text is empty or whitespace only, both
    summarizers return the empty result; no collaborator is consulted, so
    none can make them raise. *)
Theorem extractive_empty_input (text : pystr) (k : Z) :
  forallb is_space (basic_clean text) = true ->
  sentences_of text = []
  /\ centroid_extractive_summary text k = Ok empty_result
  /\ textrank_extractive_summary text k = Ok empty_result.
Proof.
  intros Hs. apply basic_clean_all_space in Hs.
  assert (sentences_of text = []) as He.
  { unfold sentences_of. rewrite Hs. apply sentence_split_empty. }
  split_and!; [done|by apply centroid_empty|by apply textrank_empty].
Qed.

End WithBackend.

(** *** The theorems at work on the stand-in collaborators *)

Lemma pets_sentences :
  sentences_of (B := ties_first) pets_text
  = [lit "Dogs are loyal pets."; lit "Cats are independent.";
     lit "Both are common household animals."].
Proof. vm_compute. reflexivity. Qed.

Lemma pets_sentences_nonempty : sentences_of (B := ties_first) pets_text <> [].
Proof. rewrite pets_sentences. discriminate. Qed.

(** Two of the three sentences, for both summarizers. *)
Lemma extractive_result_lengths_witness :
  (exists r, centroid_extractive_summary (B := ties_first) pets_text 2 = Ok r
             /\ has_length r 2)
  /\ (exists r, textrank_extractive_summary (B := ties_first) pets_text 2 = Ok r
             /\ has_length r 2).
Proof.
  destruct (extractive_result_lengths (B := ties_first) pets_text 2) as (_ & Hc & Ht).
  split.
  - edestruct Hc as (r & Hr & Hl & _); [vm_compute; reflexivity|].
    exists r. split; [exact Hr|]. apply Hl. lia.
  - edestruct Ht as (r & Hr & Hl & _); [vm_compute; reflexivity|].
    exists r. split; [exact Hr|]. apply Hl. lia.
Defined.

(** C1 as stated fails for a negative [k]: with [k = -1] the slice
    [ranked_idx[:k]] drops the last ranked index and keeps the others, so
    two of the three sentences are returned instead of none. *)
Lemma extractive_negative_k_counterexample :
  (-1 <= 0)%Z
  /\ centroid_extractive_summary (B := ties_first) pets_text (-1)
     = Ok (Build_ExtractiveSummaryResult (B := ties_first)
             (lit "Cats are independent. Both are common household animals.")
             [lit "Cats are independent."; lit "Both are common household animals."]
             [1; 2]
             [(1575 # 3)%Q; (2550 # 3)%Q])
  /\ match textrank_extractive_summary (B := ties_first) pets_text (-1) with
     | Ok r =>
         indices r = [0; 1]
         /\ selected_sentences r
            = [lit "Dogs are loyal pets."; lit "Cats are independent."]
     | Raise _ => False
     end.
Proof.
  split; [lia|]. split; [vm_compute; reflexivity|].
  vm_compute. split; reflexivity.
Qed.



Lemma extractive_document_order_witness :
  (exists r, centroid_extractive_summary (B := ties_first) pets_text 2 = Ok r
             /\ in_document_order (sentences_of (B := ties_first) pets_text) r)
  /\ (exists r, textrank_extractive_summary (B := ties_first) pets_text 2 = Ok r
             /\ in_document_order (sentences_of (B := ties_first) pets_text) r).
Proof.
  destruct (extractive_document_order (B := ties_first) pets_text 2
              pets_sentences_nonempty ltac:(lia)) as [Hc Ht].
  split.
  - edestruct Hc as (r & Hr & Ho); [vm_compute; reflexivity|]. exists r. split; [exact Hr|exact Ho].
  - edestruct Ht as (r & Hr & Ho); [vm_compute; reflexivity|]. exists r. split; [exact Hr|exact Ho].
Defined.

(** Spaces, a tab and a newline only. *)
Lemma extractive_empty_input_witness :
  centroid_extractive_summary (B := ties_first) (lit "  " ++ [9%N; 10%N]) 3
    = Ok empty_result
  /\ textrank_extractive_summary (B := ties_first) (lit "  " ++ [9%N; 10%N]) 3
    = Ok empty_result.
Proof.
  destruct (extractive_empty_input (B := ties_first) (lit "  " ++ [9%N; 10%N]) 3)
    as (_ & Hc & Ht); [reflexivity|].
  split; [exact Hc|exact Ht].
Defined.

End ExtractiveSpec.

(** * The abstractive pipeline against its specification *)

Module AbstractiveSpec.
Import TextCleaning Abstractive AbstractiveFacts.

(** C9.  With [0 <= overlap < max_chars] the chunking loop terminates on
    every text: a pass of the loop from a position inside the text either
    reaches the end of the text and breaks, or moves [start] forward by
    [max_chars - overlap > 0]; so [_chunk_text] returns once its fuel
    exceeds the length of the text, the chunks it returns do not depend on
    the fuel, and there are at least one and at most [len(text) + 1] of
    them. *)
Theorem chunk_text_terminates (text : pystr) (max_chars overlap : Z) :
  (0 <= overlap < max_chars)%Z ->
  (forall start, (0 <= start < len text)%Z ->
     (loop_body text max_chars overlap start).2 = None
     \/ exists start', (loop_body text max_chars overlap start).2 = Some start'
          /\ (start' = start + (max_chars - overlap))%Z
          /\ (start < start' < len text)%Z)
  /\ exists chunks,
       (forall fuel, length text < fuel ->
          _chunk_text fuel text max_chars overlap = Some chunks)
       /\ 1 <= length chunks <= S (length text).
Proof.
  intros Ho. split.
  - intros start Hs. by apply loop_body_progress.
  - by apply chunk_text_returns.
Qed.

Section WithPipeline.
Context `{P : Pipeline}.

(** [abstractive_summary] always returns: the fuel it gives the chunker
    is enough. *)
Lemma abstractive_summary_returns text max_length min_length log :
  exists r log', abstractive_summary text max_length min_length log = Some (r, log').
Proof.
  unfold abstractive_summary.
  destruct (chunk_text_returns (basic_clean text) 2000 200 ltac:(lia))
    as (chunks & Hc & _).
  rewrite (Hc (S (length (basic_clean text)))) by lia.
  destruct (summarize_chunks chunks max_length min_length [] log) as [cs log1].
  destruct cs as [|s [|s' cs]]; simpl; eauto.
Qed.

(** C8.  A text shorter than [max_chars] is its own single chunk.  When
    the cleaned input is shorter than the default threshold of 2000,
    [abstractive_summary] calls the generative model exactly once, on the
    cleaned text, and returns what that call produced as the one chunk
    summary and as the final summary. *)
Theorem short_text_single_call (text : pystr) (max_length min_length : Z)
    (log : list pystr) :
  (len (basic_clean text) < 2000)%Z ->
  (forall fuel max_chars overlap,
     (len (basic_clean text) < max_chars)%Z ->
     _chunk_text fuel (basic_clean text) max_chars overlap = Some [basic_clean text])
  /\ abstractive_summary text max_length min_length log
     = Some ({| summary := summarizer (basic_clean text) max_length min_length;
                chunks := [basic_clean text];
                chunk_summaries :=
                  [summarizer (basic_clean text) max_length min_length] |},
             log ++ [basic_clean text]).
Proof.
  intros Hlen. split.
  - intros fuel max_chars overlap Hm. apply chunk_text_short. lia.
  - unfold abstractive_summary. rewrite chunk_text_short by lia. done.
Qed.

End WithPipeline.

(** *** The theorems at work *)

Definition truncating_pipeline : Pipeline := {| summarizer := Toy.truncate |}.

(** Ten characters in chunks of four that overlap by one. *)
Example chunk_text_example :
  _chunk_text 11 (lit "abcdefghij") 4 1
  = Some [lit "abcd"; lit "defg"; lit "ghij"].
Proof. reflexivity. Qed.

Lemma chunk_text_terminates_witness :
  exists chunks,
    (forall fuel, 10 < fuel -> _chunk_text fuel (lit "abcdefghij") 4 1 = Some chunks)
    /\ 1 <= length chunks <= 11.
Proof.
  destruct (chunk_text_terminates (lit "abcdefghij") 4 1 ltac:(lia)) as [_ H].
  exact H.
Defined.

Lemma short_text_single_call_witness :
  abstractive_summary (P := truncating_pipeline) (lit "  Hello   world. ") 5 1 []
  = Some ({| summary := lit "Hello";
             chunks := [lit "Hello world."];
             chunk_summaries := [lit "Hello"] |},
          [lit "Hello world."]).
Proof.
  apply (short_text_single_call (P := truncating_pipeline)
           (lit "  Hello   world. ") 5 1 []).
  vm_compute. reflexivity.
Defined.

End AbstractiveSpec.

(** * The evaluator against its specification *)

Module EvaluationSpec.
Import Evaluation EvaluationFacts Toy.

Lemma exact_match_keys use_stemmer ref cand key :
  key ∈ rouge_types -> is_Some (exact_match use_stemmer ref cand !! key).
Proof.
  unfold rouge_types, exact_match. intros Hk.
  repeat (apply elem_of_cons in Hk as [->|Hk]; [by eexists|]).
  by apply elem_of_nil in Hk.
Qed.

Definition exact_match_scorer : RougeScorer :=
  {| scorer_score := exact_match; scorer_score_keys := exact_match_keys |}.

Section WithScorer.
Context `{R : RougeScorer}.

Lemma mean_fold (f : Score -> float) use_stemmer key (pairs : list (pystr * pystr)) n :
  length pairs = n ->
  PrimFloat.div
    (foldl PrimFloat.add 0%float (map f (map (pair_score use_stemmer key) pairs)))
    (float_of_len n)
  = mean (map (fun p => f (pair_score use_stemmer key p)) pairs).
Proof.
  intros <-. unfold mean. by rewrite length_map, map_map.
Qed.


(** C10.  Two empty collections pass the length check, and the averaging
    then divides by [n = 0]: [compute_rouge] raises [ZeroDivisionError]
    instead of returning a result. *)
Theorem compute_rouge_empty_batch (use_stemmer : bool) :
  length ([] : list pystr) = length ([] : list pystr)
  /\ compute_rouge [] [] use_stemmer = Raise ZeroDivisionError.
Proof. split; reflexivity. Qed.

End WithScorer.

(** *** The theorems at work *)



End EvaluationSpec.

(** * Further properties of the normalizer and the sentence splitter *)

Module CleaningSpec.
Import TextCleaning TextCleaningFacts TextCleaningSpec.

Lemma lstrip_idem text : lstrip (lstrip text) = lstrip text.
Proof.
  induction text as [|c rest IH]; [done|].
  simpl. destruct (is_space c) eqn:Hc; [done|]. simpl. by rewrite Hc.
Qed.

Lemma rstrip_idem text : rstrip (rstrip text) = rstrip text.
Proof. unfold rstrip. by rewrite rev_involutive, lstrip_idem. Qed.

Lemma lstrip_length text : length (lstrip text) <= length text.
Proof.
  induction text as [|c rest IH]; [done|].
  simpl. destruct (is_space c); simpl; lia.
Qed.

Lemma lstrip_fixed_head c rest : lstrip (c :: rest) = c :: rest -> is_space c = false.
Proof.
  simpl. destruct (is_space c); [|done]. intros H.
  pose proof (lstrip_length rest) as Hl. rewrite H in Hl. simpl in Hl. lia.
Qed.

Lemma lstrip_rstrip text : lstrip text = text -> lstrip (rstrip text) = rstrip text.
Proof.
  destruct text as [|c rest]; [done|]. intros Hc%lstrip_fixed_head.
  rewrite rstrip_cons. destruct (rstrip rest); rewrite ?Hc; simpl; by rewrite ?Hc.
Qed.

Lemma strip_trimmed text :
  lstrip (strip text) = strip text /\ rstrip (strip text) = strip text.
Proof.
  unfold strip. split; [apply lstrip_rstrip, lstrip_idem|apply rstrip_idem].
Qed.

Lemma lstrip_nonempty text :
  Exists (fun c => is_space c = false) text -> lstrip text <> [].
Proof.
  induction 1 as [c rest Hc|c rest _ IH]; simpl.
  - by rewrite Hc.
  - by destruct (is_space c).
Qed.

Lemma rstrip_nonempty text : lstrip text = text -> text <> [] -> rstrip text <> [].
Proof.
  destruct text as [|c rest]; [done|]. intros Hc%lstrip_fixed_head _.
  rewrite rstrip_cons. destruct (rstrip rest); by rewrite ?Hc.
Qed.

Lemma strip_nonempty text :
  Exists (fun c => is_space c = false) text -> strip text <> [].
Proof.
  intros H. unfold strip. apply rstrip_nonempty; [apply lstrip_idem|].
  by apply lstrip_nonempty.
Qed.

Lemma lstrip_nil_iff text :
  lstrip text = [] <-> Forall (fun c => is_space c = true) text.
Proof.
  induction text as [|c rest IH]; [by split; [constructor|]|].
  simpl. destruct (is_space c) eqn:Hc.
  - rewrite IH. split; [by constructor|]. by intros [_ ?]%Forall_cons.
  - split; [done|]. intros [? _]%Forall_cons. congruence.
Qed.

Lemma strip_nil_iff text :
  strip text = [] <-> Forall (fun c => is_space c = true) text.
Proof.
  rewrite <- lstrip_nil_iff. unfold strip. split.
  - intros H. destruct (decide (lstrip text = [])) as [|Hne]; [done|].
    exfalso. by apply (rstrip_nonempty (lstrip text) (lstrip_idem text)).
  - by intros ->.
Qed.

Lemma kept_has_content (s : pystr) :
  truthy s && negb (isspace s) = true -> Exists (fun c => is_space c = false) s.
Proof.
  destruct s as [|c s]; [done|]. simpl.
  intros H%negb_true_iff. apply Exists_exists.
  destruct (is_space c) eqn:Hc.
  - simpl in H. apply (not_true_iff_false (forallb is_space s)) in H.
    rewrite forallb_forall in H.
    destruct (decide (Forall (fun c => is_space c = true) s)) as [Hall|Hnot].
    + exfalso. apply H. intros x Hx. rewrite Forall_forall in Hall.
      apply Hall. by apply list_elem_of_In.
    + apply not_Forall_Exists in Hnot; [|intros x; apply _].
      apply Exists_exists in Hnot as (x & Hx & Hsx).
      exists x. split; [by right|]. by apply not_true_is_false.
  - exists c. split; [by left|done].
Qed.

(** X4.  Whatever the tokenizer returns, every sentence [sentence_split]
    returns is a tokenizer piece stripped of its surrounding whitespace, is
    not empty, and neither starts nor ends with whitespace; and there are
    at most as many sentences as pieces. *)
Theorem sentence_split_trimmed (sent_tokenize : pystr -> list pystr) (text : pystr) :
  Forall (fun s => s <> [] /\ lstrip s = s /\ rstrip s = s
                   /\ exists p, p ∈ sent_tokenize text /\ s = strip p)
         (sentence_split sent_tokenize text)
  /\ length (sentence_split sent_tokenize text) <= length (sent_tokenize text).
Proof.
  unfold sentence_split. split.
  - apply Forall_forall. intros s Hs.
    apply list_elem_of_fmap in Hs as (p & -> & Hp).
    apply list_elem_of_filter in Hp as [Hkeep Hp].
    destruct (strip_trimmed p) as [Hl Hr].
    split_and!; [|done|done|by exists p].
    by apply strip_nonempty, kept_has_content.
  - rewrite length_map. apply length_filter.
Qed.


Lemma split_on_app_word sep (w rest : pystr) :
  Forall (fun c => sep c = false) w ->
  split_on sep (w ++ rest)
  = match split_on sep rest with
    | h :: tl => (w ++ h) :: tl
    | [] => [w]
    end.
Proof.
  induction 1 as [|c w Hc _ IH]; simpl.
  - by destruct (split_on_cons_inv sep rest) as (h & tl & ->).
  - rewrite Hc, IH. by destruct (split_on sep rest).
Qed.

Lemma blank_SPACE : blank SPACE = true.
Proof. reflexivity. Qed.

Lemma split_on_unwords (ws : list pystr) :
  ws <> [] -> Forall (fun w => Forall (fun c => blank c = false) w) ws ->
  split_on blank (unwords ws) = ws.
Proof.
  intros Hne Hall. unfold unwords. induction Hall as [|w ws Hw Hws IH]; [done|].
  rewrite join_cons. destruct ws as [|w' ws'].
  - rewrite split_on_app_word by done. simpl. by rewrite app_nil_r.
  - rewrite split_on_app_word by done.
    change ([SPACE] ++ join [SPACE] (w' :: ws')) with (SPACE :: join [SPACE] (w' :: ws')).
    change (split_on blank (SPACE :: join [SPACE] (w' :: ws')))
      with ([] :: split_on blank (join [SPACE] (w' :: ws'))).
    rewrite IH by done. by rewrite app_nil_r.
Qed.

Lemma filter_nonempty_id (ws : list pystr) :
  Forall (fun w => w <> []) ws -> filter (fun w => w <> []) ws = ws.
Proof.
  induction 1 as [|w ws Hw _ IH]; [done|].
  rewrite filter_cons, decide_True by done. by f_equal.
Qed.

Lemma words_good text :
  Forall (fun w => w <> []) (words text)
  /\ Forall (fun w => Forall (fun c => blank c = false) w) (words text).
Proof.
  unfold words. split.
  - apply filter_nonempty_Forall.
  - apply Forall_forall. intros w [_ Hw]%list_elem_of_filter.
    pose proof (split_on_pieces blank text) as Hp.
    by eapply Forall_forall in Hp.
Qed.

Lemma words_unwords text : words (unwords (words text)) = words text.
Proof.
  destruct (words_good text) as [Hne Hnb].
  destruct (words text) as [|w ws] eqn:Hw; [done|].
  unfold words at 1. rewrite split_on_unwords by done.
  by apply filter_nonempty_id.
Qed.

(** X5.  Cleaning is idempotent: cleaning a cleaned text changes nothing. *)
Theorem basic_clean_idempotent (text : pystr) :
  basic_clean (basic_clean text) = basic_clean text.
Proof. by rewrite !basic_clean_unwords, words_unwords. Qed.

Lemma basic_clean_nil_iff (text : pystr) :
  basic_clean text = [] <-> Forall (fun c => blank c = true) text.
Proof.
  rewrite basic_clean_unwords. destruct (words_good text) as [Hne _].
  assert (concat (words text) = filter (fun c => blank c = false) text) as Hcat.
  { unfold words. by rewrite concat_filter_nonempty, concat_split_on. }
  split.
  - intros Hw. apply join_nil_inv in Hw; [|exact Hne].
    rewrite Hw in Hcat. simpl in Hcat.
    apply Forall_forall. intros c Hc.
    destruct (blank c) eqn:Hb; [done|].
    assert (c ∈ filter (fun c => blank c = false) text) as Hin
      by (by apply list_elem_of_filter).
    rewrite <- Hcat in Hin. by apply elem_of_nil in Hin.
  - intros Hall.
    assert (filter (fun c => blank c = false) text = []) as Hf.
    { clear Hne Hcat. induction Hall as [|c l Hc _ IH]; [done|].
      rewrite filter_cons, decide_False by congruence. exact IH. }
    rewrite Hf in Hcat. destruct (words text) as [|w ws]; [done|].
    apply Forall_cons in Hne as [Hw _]. simpl in Hcat.
    apply app_eq_nil in Hcat as [? _]. done.
Qed.


(** X6.  The cleaned text is empty exactly when every character of the
    input is whitespace or a control character of the class; and a text is
    empty after [strip()] exactly when every character is whitespace.  So
    a text made of non-whitespace control characters only (say "\x00")
    passes a [strip()] emptiness check and still cleans to nothing. *)
Theorem basic_clean_empty_iff (text : pystr) :
  (basic_clean text = [] <-> Forall (fun c => blank c = true) text)
  /\ (strip text = [] <-> Forall (fun c => is_space c = true) text).
Proof. split; [apply basic_clean_nil_iff|apply strip_nil_iff]. Qed.

Lemma rstrip_app (p z : pystr) :
  rstrip (p ++ z) = match rstrip z with [] => rstrip p | rz => p ++ rz end.
Proof.
  unfold rstrip. rewrite rev_app_distr, lstrip_app.
  destruct (lstrip (rev z)) as [|d l]; [done|].
  rewrite rev_app_distr, rev_involutive.
  destruct (rev (d :: l)) eqn:Hr; [|done].
  apply (f_equal (@length N)) in Hr. rewrite length_rev in Hr. done.
Qed.

(** What [re.sub(r"\s+", " ", ...)] emits for one character. *)
Definition run_prefix (in_match : bool) (c : N) : pystr :=
  if is_space c then (if in_match then [] else [SPACE]) else [c].

Lemma sub_space_runs_cons b c text :
  sub_space_runs b (c :: text) = run_prefix b c ++ sub_space_runs (is_space c) text.
Proof. unfold run_prefix. simpl. destruct (is_space c); [by destruct b|done]. Qed.

Lemma sub_class_space c :
  is_space c = true -> is_space (if is_control c then SPACE else c) = true.
Proof. by destruct (is_control c). Qed.

Lemma clean_lstrip text :
  sub_space_runs true (sub_class is_control (lstrip text))
  = sub_space_runs true (sub_class is_control text).
Proof.
  induction text as [|c rest IH]; [done|].
  simpl. destruct (is_space c) eqn:Hc; [|done].
  by rewrite IH, (sub_class_space c Hc).
Qed.

Lemma clean_rstrip text b :
  rstrip (sub_space_runs b (sub_class is_control (rstrip text)))
  = rstrip (sub_space_runs b (sub_class is_control text)).
Proof.
  revert b. induction text as [|c rest IH]; intros b; [done|].
  rewrite rstrip_cons.
  change (sub_class is_control (c :: rest))
    with ((if is_control c then SPACE else c) :: sub_class is_control rest).
  rewrite (sub_space_runs_cons b _ (sub_class is_control rest)), rstrip_app, <- IH.
  destruct (rstrip rest) as [|d r] eqn:Hr.
  - destruct (is_space c) eqn:Hc.
    + simpl. unfold run_prefix. rewrite (sub_class_space c Hc).
      by destruct b.
    + change (sub_class is_control [c]) with [if is_control c then SPACE else c].
      rewrite sub_space_runs_cons. simpl. by rewrite app_nil_r.
  - change (sub_class is_control (c :: d :: r))
      with ((if is_control c then SPACE else c) :: sub_class is_control (d :: r)).
    by rewrite sub_space_runs_cons, rstrip_app.
Qed.

Lemma clean_strip (text : pystr) : basic_clean (strip text) = basic_clean text.
Proof.
  unfold basic_clean, normalize_whitespace.
  unfold strip at 1 3. rewrite !lstrip_sub_space_runs.
  unfold strip. by rewrite clean_rstrip, clean_lstrip.
Qed.

(** X7.  Stripping a text before cleaning it makes no difference, and
    neither does stripping the cleaned text (so the API's
    [request.text.strip()] does not change what the summarizers work
    on). *)
Theorem basic_clean_strip (text : pystr) :
  basic_clean (strip text) = basic_clean text
  /\ strip (basic_clean text) = basic_clean text.
Proof.
  split; [apply clean_strip|].
  unfold basic_clean, normalize_whitespace. unfold strip at 1.
  destruct (strip_trimmed (sub_space_runs false (sub_class is_control text)))
    as [-> ->]. done.
Qed.

End CleaningSpec.

(** * Further properties of the chunker and the abstractive pipeline *)

Module ChunkerSpec.
Import TextCleaning Abstractive AbstractiveFacts.

(** The text a list of chunks stands for: the first chunk, then every
    later chunk without the [overlap] characters it repeats. *)
Definition unchunk (overlap : nat) (chunks : list pystr) : pystr :=
  match chunks with
  | [] => []
  | c :: cs => c ++ concat (map (drop overlap) cs)
  end.

(** Every chunk but the first starts with the last [overlap] characters of
    the chunk before it. *)
Fixpoint overlapping (overlap : nat) (chunks : list pystr) : Prop :=
  match chunks with
  | c :: ((d :: _) as rest) =>
      take overlap d = drop (length c - overlap) c /\ overlapping overlap rest
  | _ => True
  end.

Lemma slice_inside (text : pystr) (s e : Z) :
  (0 <= s <= e)%Z -> (e <= len text)%Z ->
  slice text s e = take (Z.to_nat (e - s)) (drop (Z.to_nat s) text).
Proof.
  intros Hs He. unfold slice, len in *.
  destruct (Z.ltb_spec s 0); [lia|]. destruct (Z.ltb_spec e 0); [lia|].
  rewrite !Z.min_l by lia. done.
Qed.

Lemma loop_body_chunk text max_chars overlap start :
  (0 < max_chars)%Z -> (0 <= start < len text)%Z ->
  (loop_body text max_chars overlap start).1
  = take (Z.to_nat max_chars) (drop (Z.to_nat start) text).
Proof.
  intros Hm Hs. unfold loop_body. simpl. rewrite slice_inside by lia.
  destruct (Z.le_ge_cases (len text) (start + max_chars)) as [Hle|Hge].
  - rewrite Z.min_l by lia.
    rewrite !take_ge; [done|rewrite length_drop; unfold len in *; lia..].
  - rewrite Z.min_r by lia. f_equal. lia.
Qed.

Lemma chunk_loop_covers text max_chars overlap (m : nat) :
  (0 <= overlap < max_chars)%Z ->
  forall start acc, (0 <= start < len text)%Z -> (len text - start <= Z.of_nat m)%Z ->
  exists h tl,
    (forall fuel, m < fuel ->
       chunk_loop fuel text max_chars overlap start acc = Some (acc ++ h :: tl))
    /\ h = take (Z.to_nat max_chars) (drop (Z.to_nat start) text)
    /\ unchunk (Z.to_nat overlap) (h :: tl) = drop (Z.to_nat start) text
    /\ overlapping (Z.to_nat overlap) (h :: tl)
    /\ Forall (fun c => 0 < length c <= Z.to_nat max_chars) (h :: tl)
    /\ ((start + max_chars < len text)%Z -> tl <> [])
    /\ (len text - start
        <= Z.of_nat (length tl) * (max_chars - overlap) + max_chars)%Z
    /\ (tl <> [] ->
        (Z.of_nat (length tl) - 1) * (max_chars - overlap) + max_chars
        < len text - start)%Z.
Proof.
  intros Ho. induction m as [|m IH]; intros start acc Hs Hm; [lia|].
  pose proof (loop_body_chunk text max_chars overlap start ltac:(lia) Hs) as Hc.
  set (h := take (Z.to_nat max_chars) (drop (Z.to_nat start) text)) in *.
  assert (0 < length h <= Z.to_nat max_chars) as Hlh.
  { unfold h. rewrite length_take, length_drop. unfold len in *. lia. }
  destruct (loop_body_progress text max_chars overlap start Ho Hs)
    as [Hn|(start' & Hn & -> & Hin)].
  - assert (len text <= start + max_chars)%Z as Hend.
    { unfold loop_body in Hn. simpl in Hn.
      destruct (Z.eqb_spec (Z.min (len text) (start + max_chars)) (len text)); [lia|done]. }
    exists h, []. split_and!;
      [|done| |done|by constructor; [|constructor]|lia|simpl; lia|done].
    + intros [|fuel] Hf; [lia|]. rewrite chunk_loop_S, Hn, Hc.
      by destruct (Z.ltb_spec start (len text)); [|lia].
    + simpl. rewrite app_nil_r. unfold h.
      apply take_ge. rewrite length_drop. unfold len in *. lia.
  - assert (start + max_chars < len text)%Z as Hmore.
    { unfold loop_body in Hn. simpl in Hn.
      destruct (Z.eqb_spec (Z.min (len text) (start + max_chars)) (len text)); [done|lia]. }
    destruct (IH (start + (max_chars - overlap))%Z (acc ++ [h]))
      as (h' & tl' & Hout & Hh' & Hun & Hov & Hall & _ & Hub & Hlb); [lia|lia|].
    assert (Z.to_nat overlap < length h') as Hlh'.
    { rewrite Hh', length_take, length_drop. unfold len in *. lia. }
    assert (length h = Z.to_nat max_chars) as Hfull.
    { unfold h. rewrite length_take, length_drop. unfold len in *. lia. }
    exists h, (h' :: tl'). split_and!; [|done| | |by constructor|done| |].
    4: { simpl length. rewrite Nat2Z.inj_succ, Z.mul_succ_l. lia. }
    4: { intros _. simpl length. rewrite Nat2Z.inj_succ.
         destruct tl' as [|c tl'']; [simpl; lia|].
         specialize (Hlb ltac:(done)). simpl length in *.
         rewrite Nat2Z.inj_succ in *. nia. }
    + intros [|fuel] Hf; [lia|]. rewrite chunk_loop_S, Hn, Hc.
      destruct (Z.ltb_spec start (len text)); [|lia].
      rewrite (Hout fuel) by lia. by rewrite <- app_assoc.
    + simpl in *.
      assert (drop (Z.to_nat overlap) h' ++ concat (map (drop (Z.to_nat overlap)) tl')
              = drop (Z.to_nat start + Z.to_nat max_chars) text) as ->.
      { rewrite <- drop_app_le by lia. rewrite Hun, drop_drop. f_equal. lia. }
      unfold h. rewrite <- drop_drop. apply take_drop.
    + split; [|done]. rewrite Hfull, Hh'. unfold h.
      rewrite take_take, Nat.min_l by lia.
      trans (take (Z.to_nat overlap)
               (drop (Z.to_nat max_chars - Z.to_nat overlap)
                  (drop (Z.to_nat start) text))).
      * rewrite drop_drop. f_equal. f_equal. lia.
      * rewrite take_drop_commute. f_equal. f_equal. lia.
Qed.


Lemma chunk_text_chunks text max_chars overlap :
  (0 <= overlap < max_chars)%Z ->
  exists chunks,
    (forall fuel, length text < fuel ->
       _chunk_text fuel text max_chars overlap = Some chunks)
    /\ unchunk (Z.to_nat overlap) chunks = text
    /\ overlapping (Z.to_nat overlap) chunks
    /\ Forall (fun c => length c <= Z.to_nat max_chars) chunks
    /\ ((max_chars < len text)%Z ->
        2 <= length chunks /\ Forall (fun c => c <> []) chunks).
Proof.
  intros Ho. unfold _chunk_text.
  destruct (Z.leb_spec (len text) max_chars) as [Hle|Hgt].
  - exists [text]. split_and!; [done|apply app_nil_r|done| |lia].
    constructor; [unfold len in *; lia|constructor].
  - destruct (chunk_loop_covers text max_chars overlap (length text) Ho 0 [])
      as (h & tl & Hout & _ & Hun & Hov & Hall & Htl & _); [lia|unfold len; lia|].
    exists (h :: tl). split_and!; [exact Hout|exact Hun|exact Hov| |].
    + eapply Forall_impl; [exact Hall|]. simpl. lia.
    + intros _. split.
      * specialize (Htl ltac:(lia)). destruct tl; [done|simpl; lia].
      * eapply Forall_impl; [exact Hall|]. simpl. intros c Hc ->. simpl in Hc. lia.
Qed.

Lemma chunk_text_count_bounds text max_chars overlap :
  (0 <= overlap < max_chars)%Z -> (max_chars < len text)%Z ->
  exists chunks,
    (forall fuel, length text < fuel ->
       _chunk_text fuel text max_chars overlap = Some chunks)
    /\ (len text
        <= (Z.of_nat (length chunks) - 1) * (max_chars - overlap) + max_chars)%Z
    /\ ((Z.of_nat (length chunks) - 2) * (max_chars - overlap) + max_chars
        < len text)%Z.
Proof.
  intros Ho Hgt. unfold _chunk_text.
  destruct (Z.leb_spec (len text) max_chars) as [Hle|_]; [lia|].
  destruct (chunk_loop_covers text max_chars overlap (length text) Ho 0 [])
    as (h & tl & Hout & _ & _ & _ & _ & Htl & Hub & Hlb); [lia|unfold len; lia|].
  exists (h :: tl). split; [exact Hout|].
  specialize (Htl ltac:(lia)). specialize (Hlb Htl).
  simpl length. rewrite Nat2Z.inj_succ. split; [lia|].
  replace (Z.succ (Z.of_nat (length tl)) - 2)%Z with (Z.of_nat (length tl) - 1)%Z by lia.
  lia.
Qed.

(** The loop never breaks when [overlap >= max_chars]: [start] never moves
    forward, so the end of the text is never reached. *)
Lemma chunk_loop_stuck text max_chars overlap fuel :
  (max_chars <= overlap)%Z -> (max_chars < len text)%Z -> text <> [] ->
  forall start acc, (start <= 0)%Z ->
    chunk_loop fuel text max_chars overlap start acc = None.
Proof.
  intros Ho Hlen Hne. induction fuel as [|fuel IH]; intros start acc Hs; [done|].
  assert (0 < len text)%Z by (unfold len; destruct text; [done|simpl; lia]).
  rewrite chunk_loop_S. destruct (Z.ltb_spec start (len text)); [|lia].
  unfold loop_body. simpl.
  destruct (Z.eqb_spec (Z.min (len text) (start + max_chars)) (len text)); [lia|].
  apply IH. lia.
Qed.

(** X1.  With [0 <= overlap < max_chars], the chunks [_chunk_text] returns
    cover the text: the first chunk followed by every later chunk without
    its first [overlap] characters is the text again; every later chunk
    starts with the last [overlap] characters of the chunk before it; no
    chunk is longer than [max_chars]; and a text longer than [max_chars]
    gives at least two chunks, none of them empty. *)
Theorem chunk_text_covers (text : pystr) (max_chars overlap : Z) :
  (0 <= overlap < max_chars)%Z ->
  exists chunks,
    (forall fuel, length text < fuel ->
       _chunk_text fuel text max_chars overlap = Some chunks)
    /\ unchunk (Z.to_nat overlap) chunks = text
    /\ overlapping (Z.to_nat overlap) chunks
    /\ Forall (fun c => length c <= Z.to_nat max_chars) chunks
    /\ ((max_chars < len text)%Z ->
        2 <= length chunks /\ Forall (fun c => c <> []) chunks).
Proof. apply chunk_text_chunks. Qed.

Lemma chunk_text_covers_witness :
  exists chunks,
    (forall fuel, 10 < fuel -> _chunk_text fuel (lit "abcdefghij") 4 1 = Some chunks)
    /\ unchunk 1 chunks = lit "abcdefghij"
    /\ overlapping 1 chunks
    /\ Forall (fun c => length c <= 4) chunks
    /\ ((4 < 10)%Z -> 2 <= length chunks /\ Forall (fun c => c <> []) chunks).
Proof. apply (chunk_text_covers (lit "abcdefghij") 4 1). lia. Defined.

(** X2.  With [overlap >= max_chars], on a non-empty text longer than
    [max_chars], the chunking loop never terminates: whatever the fuel,
    [_chunk_text] runs out of it. *)
Theorem chunk_text_diverges (text : pystr) (max_chars overlap : Z) (fuel : nat) :
  (max_chars <= overlap)%Z -> (max_chars < len text)%Z -> text <> [] ->
  _chunk_text fuel text max_chars overlap = None.
Proof.
  intros Ho Hlen Hne. unfold _chunk_text.
  destruct (Z.leb_spec (len text) max_chars); [lia|].
  by apply chunk_loop_stuck.
Qed.

Lemma chunk_text_diverges_witness :
  _chunk_text 1000 (lit "abcdefghij") 4 4 = None.
Proof.
  apply (chunk_text_diverges (lit "abcdefghij") 4 4 1000);
    [lia|vm_compute; reflexivity|discriminate].
Defined.

(** X20.  With [0 <= overlap < max_chars], a text longer than [max_chars]
    is cut into [(len(text) - overlap - 1) // (max_chars - overlap) + 1]
    chunks. *)
Theorem chunk_text_count (text : pystr) (max_chars overlap : Z) :
  (0 <= overlap < max_chars)%Z -> (max_chars < len text)%Z ->
  exists chunks,
    (forall fuel, length text < fuel ->
       _chunk_text fuel text max_chars overlap = Some chunks)
    /\ Z.of_nat (length chunks)
       = ((len text - overlap - 1) / (max_chars - overlap) + 1)%Z.
Proof.
  intros Ho Hgt.
  destruct (chunk_text_count_bounds text max_chars overlap Ho Hgt)
    as (chunks & Hc & Hub & Hlb).
  exists chunks. split; [exact Hc|].
  set (n := Z.of_nat (length chunks)) in *.
  set (d := (max_chars - overlap)%Z) in *.
  assert (n - 1 = (len text - overlap - 1) / d)%Z as Hq; [|lia].
  apply (Z.div_unique _ _ _ (len text - overlap - 1 - d * (n - 1))%Z); [|lia].
  left. unfold d in *. nia.
Qed.

Lemma chunk_text_count_witness :
  exists chunks,
    (forall fuel, 10 < fuel -> _chunk_text fuel (lit "abcdefghij") 4 1 = Some chunks)
    /\ Z.of_nat (length chunks) = 3%Z.
Proof.
  apply (chunk_text_count (lit "abcdefghij") 4 1); [lia|vm_compute; reflexivity].
Defined.

Section WithPipeline.
Context `{P : Pipeline}.

Lemma summarize_chunks_map chunks max_length min_length acc log :
  summarize_chunks chunks max_length min_length acc log
  = (acc ++ map (fun c => summarizer c max_length min_length) chunks, log ++ chunks).
Proof.
  revert acc log. induction chunks as [|c chunks IH]; intros acc log; simpl.
  - by rewrite !app_nil_r.
  - unfold call_summarizer. rewrite IH. by rewrite <- !app_assoc.
Qed.

(** X3.  When the cleaned input is longer than 2000 characters,
    [abstractive_summary] splits it into at least two chunks that cover
    it, calls the model once per chunk, in order, and then once more on
    the chunk summaries joined by single spaces; that last call's output is
    the final summary.  So it makes one call more than there are chunks. *)
Theorem long_text_map_reduce (text : pystr) (max_length min_length : Z)
    (log : list pystr) :
  (2000 < len (basic_clean text))%Z ->
  exists chunks,
    2 <= length chunks
    /\ unchunk 200 chunks = basic_clean text
    /\ abstractive_summary text max_length min_length log
       = Some ({| summary :=
                    summarizer
                      (join [SPACE]
                         (map (fun c => summarizer c max_length min_length) chunks))
                      max_length min_length;
                  chunks := chunks;
                  chunk_summaries :=
                    map (fun c => summarizer c max_length min_length) chunks |},
               log ++ chunks
                 ++ [join [SPACE]
                       (map (fun c => summarizer c max_length min_length) chunks)]).
Proof.
  intros Hlen.
  destruct (chunk_text_chunks (basic_clean text) 2000 200 ltac:(lia))
    as (chunks & Hc & Hun & _ & _ & Htwo).
  destruct (Htwo Hlen) as [H2 _].
  exists chunks. split; [done|]. split; [exact Hun|].
  unfold abstractive_summary. rewrite (Hc (S (length (basic_clean text)))) by lia.
  rewrite summarize_chunks_map. simpl.
  destruct chunks as [|c1 [|c2 chunks]]; simpl in H2; [lia|lia|].
  simpl. unfold call_summarizer. by rewrite <- !app_assoc.
Qed.

(** X18.  [abstractive_summary] always returns.  Its chunks cover the
    cleaned text, there is one chunk summary per chunk (the model's output
    on that chunk), there is a single chunk exactly when the cleaned text
    has at most 2000 characters, and the model is called once per chunk
    plus, when there are several chunks, once more. *)
Theorem abstractive_summary_calls (text : pystr) (max_length min_length : Z)
    (log : list pystr) :
  exists r log',
    abstractive_summary text max_length min_length log = Some (r, log')
    /\ unchunk 200 (chunks r) = basic_clean text
    /\ chunk_summaries r
       = map (fun c => summarizer c max_length min_length) (chunks r)
    /\ ((len (basic_clean text) <= 2000)%Z <-> length (chunks r) = 1)
    /\ length log'
       = length log + length (chunks r)
         + (if (len (basic_clean text) <=? 2000)%Z then 0 else 1).
Proof.
  destruct (chunk_text_chunks (basic_clean text) 2000 200 ltac:(lia))
    as (cs & Hc & Hun & _ & _ & Htwo).
  unfold abstractive_summary.
  rewrite (Hc (S (length (basic_clean text)))) by lia.
  rewrite summarize_chunks_map. simpl app.
  destruct (Z.leb_spec (len (basic_clean text)) 2000) as [Hle|Hgt].
  - specialize (Hc (S (length (basic_clean text))) ltac:(lia)).
    rewrite chunk_text_short in Hc by done. injection Hc as <-.
    eexists _, _. split; [reflexivity|]. simpl.
    split_and!; [apply app_nil_r|done|done|]. rewrite length_app. simpl. lia.
  - destruct (Htwo Hgt) as [H2 _].
    destruct cs as [|c1 [|c2 cs]]; simpl in H2; [lia|lia|].
    eexists _, _. split; [reflexivity|]. simpl.
    split_and!; [exact Hun|done| |].
    + split; [lia|done].
    + rewrite !length_app. simpl. lia.
Qed.

End WithPipeline.

Lemma long_text_map_reduce_witness :
  exists chunks,
    2 <= length chunks
    /\ unchunk 200 chunks = basic_clean (replicate 2001 97%N)
    /\ abstractive_summary (P := AbstractiveSpec.truncating_pipeline)
         (replicate 2001 97%N) 5 1 []
       = Some ({| summary :=
                    Toy.truncate
                      (join [SPACE] (map (fun c => Toy.truncate c 5 1) chunks)) 5 1;
                  chunks := chunks;
                  chunk_summaries := map (fun c => Toy.truncate c 5 1) chunks |},
               [] ++ chunks
                 ++ [join [SPACE] (map (fun c => Toy.truncate c 5 1) chunks)]).
Proof.
  apply (long_text_map_reduce (P := AbstractiveSpec.truncating_pipeline)
           (replicate 2001 97%N) 5 1 []).
  vm_compute. reflexivity.
Defined.

End ChunkerSpec.

(** * Further properties of the extractive summarizers *)

Module SelectionSpec.
Import TextCleaning Extractive ListFacts SelectorFacts RankerFacts SummarizerFacts
  Toy ToyFacts ToyBackend.

Lemma StronglySorted_seq (start n : nat) : StronglySorted Nat.le (seq start n).
Proof.
  revert start. induction n as [|n IH]; intros start; simpl; constructor; [apply IH|].
  apply Forall_forall. intros x Hx. apply elem_of_seq in Hx. unfold Nat.le. lia.
Qed.

Lemma sorted_of_seq_perm (l : list nat) (n : nat) : l ≡ₚ seq 0 n -> sorted l = seq 0 n.
Proof.
  intros Hp. apply (StronglySorted_unique Nat.le).
  - apply Sorted_StronglySorted; [|apply sorted_Sorted].
    intros x y z. unfold Nat.le. lia.
  - apply StronglySorted_seq.
  - by rewrite sorted_perm.
Qed.

Lemma Forall2_lookup_seq {A : Type} (l xs : list A) :
  Forall2 (fun i x => l !! i = Some x) (seq 0 (length l)) xs -> xs = l.
Proof.
  intros H. apply list_eq. intros i.
  pose proof (Forall2_length _ _ _ H) as Hlen. rewrite length_seq in Hlen.
  destruct (decide (i < length l)) as [Hi|Hi].
  - destruct (lookup_lt_is_Some_2 xs i ltac:(lia)) as [x Hx].
    rewrite Hx. symmetry.
    eapply (Forall2_lookup_lr _ _ _ i i x) in H; [done| |done].
    by apply lookup_seq.
  - rewrite !lookup_ge_None_2 by lia. done.
Qed.

Section WithBackend.
Context `{B : Backend}.

Lemma select_all sentences v k :
  length v = length sentences -> (Z.of_nat (length sentences) <= k)%Z ->
  select sentences v k
  = Ok {| summary := join [SPACE] sentences;
          selected_sentences := sentences;
          indices := seq 0 (length sentences);
          scores := v |}.
Proof.
  intros Hlen Hk.
  destruct (select_ok sentences v k Hlen) as (r & Hr & Hidx & Hss & Hxs & Hsum).
  rewrite Hr. f_equal.
  assert (indices r = seq 0 (length sentences)) as Hi.
  { rewrite Hidx. unfold top_ranked, slice_to.
    destruct (Z.ltb_spec (Z.min k (Z.of_nat (length sentences))) 0); [lia|].
    rewrite take_ge by (rewrite ranked_length; lia).
    apply sorted_of_seq_perm. by rewrite argsort_perm, length_map, Hlen. }
  rewrite Hi in Hss, Hxs. rewrite <- Hlen in Hxs.
  apply Forall2_lookup_seq in Hss, Hxs.
  destruct r; simpl in *. by rewrite Hsum, Hss, Hi, Hxs.
Qed.

Lemma select_negative sentences v k :
  length v = length sentences -> (k < 0)%Z ->
  exists r, select sentences v k = Ok r
    /\ has_length r (Z.to_nat (Z.of_nat (length sentences) + k)).
Proof.
  intros Hlen Hk.
  destruct (select_ok sentences v k Hlen) as (r & Hr & Hidx & Hss & Hxs & _).
  exists r. split; [done|].
  assert (length (indices r) = Z.to_nat (Z.of_nat (length sentences) + k)) as Hl.
  { rewrite Hidx, sorted_perm. unfold top_ranked.
    replace (length sentences) with (length (argsort (map neg v)))
      by (by rewrite ranked_length).
    rewrite slice_to_length. by destruct (Z.ltb_spec k 0); [|lia]. }
  unfold has_length. apply Forall2_length in Hss, Hxs. split_and!; congruence.
Qed.

Lemma select_monotone sentences v k k' :
  length v = length sentences -> (0 <= k <= k')%Z ->
  exists r r', select sentences v k = Ok r /\ select sentences v k' = Ok r'
    /\ indices r ⊆ indices r'.
Proof.
  intros Hlen Hk.
  destruct (select_ok sentences v k Hlen) as (r & Hr & Hidx & _).
  destruct (select_ok sentences v k' Hlen) as (r' & Hr' & Hidx' & _).
  exists r, r'. split; [done|]. split; [done|].
  intros i. rewrite Hidx, Hidx', !sorted_perm. unfold top_ranked, slice_to.
  destruct (Z.ltb_spec (Z.min k (Z.of_nat (length sentences))) 0); [lia|].
  destruct (Z.ltb_spec (Z.min k' (Z.of_nat (length sentences))) 0); [lia|].
  intros Hi. apply list_elem_of_lookup in Hi as [p Hp].
  apply lookup_take_Some in Hp as [Hp Hlt].
  apply list_elem_of_lookup. exists p. rewrite lookup_take_lt by lia. done.
Qed.

Lemma centroid_scores_raise sentences e :
  centroid_scores sentences = Raise e <-> encode sentences = Raise e.
Proof.
  unfold centroid_scores. destruct (encode sentences) as [E|e']; simpl.
  - split; [|done]. by destruct (squeeze _).
  - split; intros [= ->]; reflexivity.
Qed.

Lemma textrank_scores_raise sentences e :
  textrank_scores sentences = Raise e
  <-> encode sentences = Raise e
      \/ exists M, _build_similarity_matrix sentences = Ok M /\ pagerank M = Raise e.
Proof.
  unfold textrank_scores, _build_similarity_matrix.
  destruct (encode sentences) as [E|e']; simpl.
  - set (M := fill_diagonal _ _).
    destruct (pagerank M) as [d|e'] eqn:Hd; simpl.
    + destruct (dict_get_keys d) as [v ->]. split; [done|].
      intros [?|(M' & [= <-] & HM)]; [done|]. congruence.
    + split.
      * intros [= ->]. right. by exists M.
      * intros [?|(M' & [= <-] & HM)]; [done|]. congruence.
  - split; [intros [= ->]; by left|].
    intros [[= ->]|(M' & ? & _)]; [reflexivity|done].
Qed.

Lemma map_result_ext {A C : Type} (f g : A -> result C) (l : list A) :
  (forall x, x ∈ l -> f x = g x) -> map_result f l = map_result g l.
Proof.
  induction l as [|x l IH]; intros H; [done|].
  simpl. rewrite (H x) by (by left). rewrite IH; [done|].
  intros y Hy. apply H. by right.
Qed.

Lemma map_result_cons {A C : Type} (f : A -> result C) (x : A) (l : list A) :
  map_result f (x :: l) = f x ≫= fun y => map_result f l ≫= fun ys => Ok (y :: ys).
Proof. reflexivity. Qed.

Lemma dict_get_values (d : list (nat * score)) :
  NoDup (d.*1) -> map_result (dict_get d) (d.*1) = Ok (d.*2).
Proof.
  induction d as [|[k x] d IH]; [done|].
  rewrite !fmap_cons. intros [Hk Hnd]%NoDup_cons.
  rewrite map_result_cons.
  rewrite (map_result_ext (dict_get ((k, x) :: d)) (dict_get d)).
  - rewrite (IH Hnd). simpl. by rewrite Nat.eqb_refl.
  - intros k' Hk'. simpl. destruct (Nat.eqb_spec k k'); [|done].
    subst. done.
Qed.

Lemma select_never_raises sentences v k e :
  length v = length sentences -> select sentences v k <> Raise e.
Proof.
  intros Hlen. destruct (select_ok sentences v k Hlen) as (r & -> & _). done.
Qed.


Lemma build_similarity_matrix_shape sentences M :
  _build_similarity_matrix sentences = Ok M ->
  length M = length sentences
  /\ Forall (fun row => length row = length sentences) M
  /\ forall i row, M !! i = Some row -> row !! i = Some fzero.
Proof.
  intros HM. pose proof (build_similarity_matrix_rows _ _ HM) as Hrows.
  unfold _build_similarity_matrix in HM.
  destruct (encode sentences) as [E|] eqn:HE; simpl in HM; [|done].
  injection HM as <-.
  set (A := divide_rows E (row_norms E)) in *.
  assert (length A = length sentences) as HA.
  { unfold fill_diagonal, dot_transpose in Hrows.
    by rewrite length_imap, length_map in Hrows. }
  assert (forall i row, fill_diagonal (dot_transpose A) fzero !! i = Some row ->
            length row = length sentences /\ row !! i = Some fzero) as Hrow.
  { intros i row Hi. unfold fill_diagonal in Hi.
    rewrite list_lookup_imap in Hi.
    destruct (dot_transpose A !! i) as [r|] eqn:Hr; [|done].
    injection Hi as <-.
    assert (length r = length sentences) as Hlr.
    { unfold dot_transpose in Hr. rewrite list_lookup_fmap in Hr.
      destruct (A !! i); [|done]. injection Hr as <-. by rewrite length_map. }
    split; [by rewrite length_insert|].
    apply list_lookup_insert_eq. rewrite Hlr, <- Hrows.
    apply lookup_lt_Some in Hr.
    unfold fill_diagonal. rewrite length_imap. done. }
  split_and!; [done| |].
  - apply Forall_forall. intros row Hin.
    apply list_elem_of_lookup in Hin as [i Hi]. by apply (Hrow i).
  - intros i row Hi. by apply (Hrow i).
Qed.


(** X9.  When [k] is at least the number of sentences (in particular for a
    one-sentence text and any [k >= 1]), both summarizers return the whole
    document: every sentence, in document order, with indices
    [0 .. N-1], all the ranker's scores, and the sentences joined by single
    spaces as the summary. *)
Theorem extractive_whole_document (text : pystr) (k : Z) :
  (Z.of_nat (length (sentences_of text)) <= k)%Z ->
  (forall v, centroid_scores (sentences_of text) = Ok v ->
     centroid_extractive_summary text k
     = Ok {| summary := join [SPACE] (sentences_of text);
             selected_sentences := sentences_of text;
             indices := seq 0 (length (sentences_of text));
             scores := v |})
  /\ (forall v, textrank_scores (sentences_of text) = Ok v ->
     textrank_extractive_summary text k
     = Ok {| summary := join [SPACE] (sentences_of text);
             selected_sentences := sentences_of text;
             indices := seq 0 (length (sentences_of text));
             scores := v |}).
Proof.
  intros Hk.
  assert (forall v, length v = length (sentences_of text) ->
            sentences_of text = [] ->
            empty_result
            = {| summary := join [SPACE] (sentences_of text);
                 selected_sentences := sentences_of text;
                 indices := seq 0 (length (sentences_of text));
                 scores := v |}) as Hempty.
  { intros v Hlen He. rewrite He in *. destruct v; [done|discriminate]. }
  split; intros v Hv.
  - pose proof (centroid_scores_length _ _ Hv) as Hlen.
    destruct (decide (sentences_of text = [])) as [He|Hne].
    + rewrite (centroid_empty _ _ He). f_equal. by apply Hempty.
    + rewrite (centroid_nonempty _ _ Hne), Hv. simpl. by apply select_all.
  - pose proof (textrank_scores_length _ _ Hv) as Hlen.
    destruct (decide (sentences_of text = [])) as [He|Hne].
    + rewrite (textrank_empty _ _ He). f_equal. by apply Hempty.
    + rewrite (textrank_nonempty _ _ Hne), Hv. simpl. by apply select_all.
Qed.

(** X10.  For a negative [k], once the ranker has returned its scores,
    both summarizers return [max(N + k, 0)] sentences: the slice
    [ranked_idx[:k]] drops the [-k] lowest-ranked indices. *)
Theorem extractive_negative_k (text : pystr) (k : Z) :
  (k < 0)%Z ->
  (forall v, centroid_scores (sentences_of text) = Ok v ->
     exists r, centroid_extractive_summary text k = Ok r
       /\ has_length r (Z.to_nat (Z.of_nat (length (sentences_of text)) + k)))
  /\ (forall v, textrank_scores (sentences_of text) = Ok v ->
     exists r, textrank_extractive_summary text k = Ok r
       /\ has_length r (Z.to_nat (Z.of_nat (length (sentences_of text)) + k))).
Proof.
  intros Hk.
  assert (sentences_of text = [] ->
          has_length empty_result
            (Z.to_nat (Z.of_nat (length (sentences_of text)) + k))) as Hempty.
  { intros ->. unfold has_length. simpl. lia. }
  split; intros v Hv.
  - pose proof (centroid_scores_length _ _ Hv) as Hlen.
    destruct (decide (sentences_of text = [])) as [He|Hne].
    + rewrite (centroid_empty _ _ He). eexists. split; [done|]. by apply Hempty.
    + rewrite (centroid_nonempty _ _ Hne), Hv. simpl. by apply select_negative.
  - pose proof (textrank_scores_length _ _ Hv) as Hlen.
    destruct (decide (sentences_of text = [])) as [He|Hne].
    + rewrite (textrank_empty _ _ He). eexists. split; [done|]. by apply Hempty.
    + rewrite (textrank_nonempty _ _ Hne), Hv. simpl. by apply select_negative.
Qed.

(** X11.  Asking for more sentences never drops one: for
    [0 <= k <= k'], once the ranker has returned its scores, every index
    selected for [k] is also selected for [k']. *)
Theorem extractive_monotone_in_k (text : pystr) (k k' : Z) :
  (0 <= k <= k')%Z ->
  (forall v, centroid_scores (sentences_of text) = Ok v ->
     exists r r', centroid_extractive_summary text k = Ok r
       /\ centroid_extractive_summary text k' = Ok r'
       /\ indices r ⊆ indices r')
  /\ (forall v, textrank_scores (sentences_of text) = Ok v ->
     exists r r', textrank_extractive_summary text k = Ok r
       /\ textrank_extractive_summary text k' = Ok r'
       /\ indices r ⊆ indices r').
Proof.
  intros Hk. split; intros v Hv.
  - pose proof (centroid_scores_length _ _ Hv) as Hlen.
    destruct (decide (sentences_of text = [])) as [He|Hne].
    + rewrite !(centroid_empty _ _ He). by exists empty_result, empty_result.
    + rewrite !(centroid_nonempty _ _ Hne), Hv. simpl. by apply select_monotone.
  - pose proof (textrank_scores_length _ _ Hv) as Hlen.
    destruct (decide (sentences_of text = [])) as [He|Hne].
    + rewrite !(textrank_empty _ _ He). by exists empty_result, empty_result.
    + rewrite !(textrank_nonempty _ _ Hne), Hv. simpl. by apply select_monotone.
Qed.

(** X12.  [_build_similarity_matrix] raises exactly when the encoder does;
    otherwise, for [N] sentences, it returns [N] rows of [N] entries each,
    and every diagonal entry is zero. *)
Theorem similarity_matrix_shape (sentences : list pystr) :
  (forall e, _build_similarity_matrix sentences = Raise e
             <-> encode sentences = Raise e)
  /\ forall M, _build_similarity_matrix sentences = Ok M ->
       length M = length sentences
       /\ Forall (fun row => length row = length sentences) M
       /\ forall i row, M !! i = Some row -> row !! i = Some fzero.
Proof.
  split.
  - intros e. unfold _build_similarity_matrix.
    destruct (encode sentences); simpl; [done|].
    split; intros [= ->]; reflexivity.
  - apply build_similarity_matrix_shape.
Qed.

(** X19.  When the encoder and PageRank return, the graph ranker's scores
    are PageRank's values listed in node order: there is one per
    sentence, and the score at position [i] is the one PageRank gave node
    [i], the node of sentence [i]. *)
Theorem textrank_scores_in_node_order (sentences : list pystr)
    (M : list (list score)) (d : list (nat * score)) :
  _build_similarity_matrix sentences = Ok M -> pagerank M = Ok d ->
  textrank_scores sentences = Ok (d.*2)
  /\ length (d.*2) = length sentences
  /\ forall i k x, d !! i = Some (k, x) -> k = i /\ d.*2 !! i = Some x.
Proof.
  intros HM Hd. pose proof (pagerank_keys _ _ Hd) as Hkeys.
  pose proof (build_similarity_matrix_rows _ _ HM) as Hrows.
  split_and!.
  - unfold textrank_scores. rewrite HM. simpl. rewrite Hd. simpl.
    apply dict_get_values. rewrite Hkeys. apply NoDup_seq.
  - rewrite length_fmap, <- (length_fmap fst), Hkeys, length_seq. done.
  - intros i k x Hi. split.
    + assert (d.*1 !! i = Some k) as Hk by (by rewrite list_lookup_fmap, Hi).
      rewrite Hkeys in Hk. apply lookup_seq in Hk as [-> _]. done.
    + by rewrite list_lookup_fmap, Hi.
Qed.

End WithBackend.

Lemma textrank_scores_in_node_order_witness :
  exists M d,
    _build_similarity_matrix (B := ties_first) [lit "Aa."; lit "Bbb."] = Ok M
    /\ pagerank (Backend := ties_first) M = Ok d
    /\ textrank_scores (B := ties_first) [lit "Aa."; lit "Bbb."] = Ok (d.*2)
    /\ length (d.*2) = 2.
Proof.
  eexists _, _. split; [reflexivity|]. split; [reflexivity|].
  edestruct (textrank_scores_in_node_order (B := ties_first)
               [lit "Aa."; lit "Bbb."]) as (H1 & H2 & _);
    [reflexivity|reflexivity|].
  split; [exact H1|exact H2].
Defined.

Lemma extractive_whole_document_witness :
  centroid_extractive_summary (B := ties_first) ExtractiveSpec.pets_text 5
  = Ok (Build_ExtractiveSummaryResult (B := ties_first)
          ExtractiveSpec.pets_text
          [lit "Dogs are loyal pets."; lit "Cats are independent.";
           lit "Both are common household animals."]
          [0; 1; 2]
          [(1500 # 3)%Q; (1575 # 3)%Q; (2550 # 3)%Q]).
Proof.
  destruct (extractive_whole_document (B := ties_first) ExtractiveSpec.pets_text 5)
    as [Hc _]; [vm_compute; discriminate|].
  rewrite (Hc [(1500 # 3)%Q; (1575 # 3)%Q; (2550 # 3)%Q]) by (vm_compute; reflexivity).
  vm_compute. reflexivity.
Defined.

Lemma extractive_negative_k_witness :
  exists r, centroid_extractive_summary (B := ties_first) ExtractiveSpec.pets_text (-1)
            = Ok r /\ has_length r 2.
Proof.
  destruct (extractive_negative_k (B := ties_first) ExtractiveSpec.pets_text (-1))
    as [Hc _]; [lia|].
  apply (Hc [(1500 # 3)%Q; (1575 # 3)%Q; (2550 # 3)%Q]). vm_compute. reflexivity.
Defined.

Lemma extractive_monotone_in_k_witness :
  exists r r',
    centroid_extractive_summary (B := ties_first) ExtractiveSpec.pets_text 1 = Ok r
    /\ centroid_extractive_summary (B := ties_first) ExtractiveSpec.pets_text 2 = Ok r'
    /\ indices r ⊆ indices r'.
Proof.
  destruct (extractive_monotone_in_k (B := ties_first) ExtractiveSpec.pets_text 1 2)
    as [Hc _]; [lia|].
  apply (Hc [(1500 # 3)%Q; (1575 # 3)%Q; (2550 # 3)%Q]). vm_compute. reflexivity.
Defined.

End SelectionSpec.

(** * Further properties of the evaluator *)

Module RougeSpec.
Import Evaluation EvaluationFacts.

Lemma dom_fields_of a :
  dom (fields_of a) = ({["precision"; "recall"; "fmeasure"]} : gset string).
Proof. unfold fields_of. rewrite !dom_insert_L, dom_empty_L. set_solver. Qed.

Lemma dom_agg_of a1 a2 aL :
  dom (agg_of a1 a2 aL) = ({["rouge1"; "rouge2"; "rougeL"]} : gset string).
Proof. unfold agg_of. rewrite !dom_insert_L, dom_empty_L. set_solver. Qed.

Lemma agg_of_fields a1 a2 aL key fields :
  agg_of a1 a2 aL !! key = Some fields ->
  fields = fields_of a1 \/ fields = fields_of a2 \/ fields = fields_of aL.
Proof.
  unfold agg_of. intros H.
  apply lookup_insert_Some in H as [[_ H]|[_ H]]; [by left|].
  apply lookup_insert_Some in H as [[_ H]|[_ H]]; [by right; left|].
  apply lookup_insert_Some in H as [[_ H]|[_ H]]; [by right; right|].
  by rewrite lookup_empty in H.
Qed.

Section WithScorer.
Context `{R : RougeScorer}.

Lemma compute_rouge_cases references candidates use_stemmer :
  (length references <> length candidates
   /\ compute_rouge references candidates use_stemmer = Raise ValueError)
  \/ (references = [] /\ candidates = []
      /\ compute_rouge references candidates use_stemmer = Raise ZeroDivisionError)
  \/ (length references = length candidates /\ 0 < length references
      /\ exists a1 a2 aL,
           compute_rouge references candidates use_stemmer = Ok (agg_of a1 a2 aL)).
Proof.
  destruct (decide (length references = length candidates)) as [He|Hne].
  - right. destruct references as [|ref references].
    + destruct candidates; [|done]. left. by split_and!.
    + right. split; [done|]. split; [simpl; lia|].
      rewrite compute_rouge_unfold.
      rewrite bool_decide_eq_false_2 by (intros ?; done).
      rewrite accumulate_all, bind_Ok, average_all, bind_Ok by done.
      by eexists _, _, _.
  - left. split; [done|]. rewrite compute_rouge_unfold.
    by rewrite bool_decide_eq_true_2.
Qed.

(** X13.  [compute_rouge] has three outcomes and no other: [ValueError]
    when the lengths differ (C7), [ZeroDivisionError] exactly when both
    collections are empty, and a result exactly when they have the same
    positive length; it never raises [KeyError].  A result has exactly the
    keys rouge1, rouge2 and rougeL, each holding exactly the fields
    precision, recall and fmeasure. *)
Theorem compute_rouge_outcomes (references candidates : list pystr)
    (use_stemmer : bool) :
  (compute_rouge references candidates use_stemmer = Raise ZeroDivisionError
   <-> references = [] /\ candidates = [])
  /\ (forall e, compute_rouge references candidates use_stemmer = Raise e ->
        e = ValueError \/ e = ZeroDivisionError)
  /\ ((exists agg, compute_rouge references candidates use_stemmer = Ok agg)
      <-> length references = length candidates /\ 0 < length references)
  /\ (forall agg, compute_rouge references candidates use_stemmer = Ok agg ->
        dom agg = ({["rouge1"; "rouge2"; "rougeL"]} : gset string)
        /\ forall key fields, agg !! key = Some fields ->
             dom fields = ({["precision"; "recall"; "fmeasure"]} : gset string)).
Proof.
  destruct (compute_rouge_cases references candidates use_stemmer)
    as [[Hne Hc]|[[-> [-> Hc]]|(He & Hpos & a1 & a2 & aL & Hc)]]; rewrite Hc.
  - split_and!.
    + split; [done|]. intros [-> ->]. done.
    + intros e [= <-]. by left.
    + split; [by intros [agg ?]|]. intros [? _]. done.
    + done.
  - split_and!.
    + done.
    + intros e [= <-]. by right.
    + split; [by intros [agg ?]|]. simpl. lia.
    + done.
  - split_and!.
    + split; [done|]. intros [-> ->]. simpl in Hpos. lia.
    + done.
    + split; [done|]. intros _. by eexists.
    + intros agg [= <-]. split; [apply dom_agg_of|].
      intros key fields Hk.
      destruct (agg_of_fields _ _ _ _ _ Hk) as [-> | [-> | ->]]; apply dom_fields_of.
Qed.

End WithScorer.
End RougeSpec.

(** * The HTTP endpoints *)

Module ApiSpec.
Import TextCleaning TextCleaningFacts CleaningSpec SummarizerFacts Api.

(** Stand-ins for the runtime: ASCII lower-casing, and an extractor that
    reads the bytes as Latin-1 text. *)
Definition ascii_lower (s : pystr) : pystr :=
  map (fun c => if ((65 <=? c) && (c <=? 90))%N then (c + 32)%N else c) s.

Definition latin1_runtime : Runtime :=
  {| lower := ascii_lower;
     extract_text_from_pdf_bytes := map Byte.to_N |}.

Lemma truthy_false_iff (s : pystr) : negb (truthy s) = true <-> s = [].
Proof. by destruct s. Qed.

Section WithCollaborators.
Context `{B : Extractive.Backend} `{P : Abstractive.Pipeline} `{T : Runtime}.

Lemma centroid_strip text k :
  Extractive.centroid_extractive_summary (strip text) k
  = Extractive.centroid_extractive_summary text k.
Proof. unfold Extractive.centroid_extractive_summary. by rewrite clean_strip. Qed.

Lemma summarize_blank request log :
  strip (text request) = [] ->
  summarize request log = Some (HTTPException 400 "Input text is empty.", log).
Proof. intros H. unfold summarize. by rewrite H. Qed.

Lemma summarize_not_blank request log :
  strip (text request) <> [] ->
  summarize request log
  = if bool_decide (lower (mode request) = lit "extractive") then
      match Extractive.centroid_extractive_summary (text request)
              (num_sentences request) with
      | Ok result =>
          Some (Respond
                  {| response_summary := Extractive.summary result;
                     response_mode := "extractive";
                     response_details :=
                       Some (ExtractiveDetails
                               (Extractive.indices result)
                               (Extractive.scores result)
                               (Extractive.selected_sentences result)) |},
                log)
      | Raise e => Some (Uncaught e, log)
      end
    else if bool_decide (lower (mode request) = lit "abstractive") then
      match Abstractive.abstractive_summary (strip (text request))
              (max_length request) (min_length request) log with
      | Some (result, log) =>
          Some (Respond
                  {| response_summary := Abstractive.summary result;
                     response_mode := "abstractive";
                     response_details :=
                       Some (AbstractiveDetails
                               (Abstractive.chunks result)
                               (Abstractive.chunk_summaries result)) |},
                log)
      | None => None
      end
    else
      Some (HTTPException 400 "Invalid mode. Use 'extractive' or 'abstractive'.", log).
Proof.
  intros H. unfold summarize.
  destruct (strip (text request)) eqn:Hs; [done|]. simpl negb. cbv iota.
  rewrite <- Hs. by rewrite centroid_strip.
Qed.



Lemma summarize_error_cases request log status detail log' :
  summarize request log = Some (HTTPException status detail, log') ->
  status = 400%Z /\ log' = log
  /\ (detail = "Input text is empty." /\ strip (text request) = []
      \/ detail = "Invalid mode. Use 'extractive' or 'abstractive'."
         /\ strip (text request) <> [])%string.
Proof.
  destruct (decide (strip (text request) = [])) as [Hb|Hnb].
  - rewrite (summarize_blank _ _ Hb). intros [= <- <- <-]. by split_and!; [| |left].
  - rewrite (summarize_not_blank _ _ Hnb). repeat case_bool_decide.
    + by destruct (Extractive.centroid_extractive_summary _ _).
    + by destruct (Abstractive.abstractive_summary _ _ _ _) as [[r l]|].
    + intros [= <- <- <-]. by split_and!; [| |right].
Qed.

(** X15.  In extractive mode (the lower-cased mode is "extractive") and
    for a text that is not all whitespace, [summarize] serves the centroid
    summarizer's result for the text as it was sent: the summary, and the
    indices, scores and selected sentences as details.  The generative
    model is not called, [num_sentences] is passed on unchecked, and an
    exception of the summarizer goes through uncaught. *)
Theorem summarize_extractive (request : SummarizeRequest) (log : list pystr) :
  ~ Forall (fun c => is_space c = true) (text request) ->
  lower (mode request) = lit "extractive" ->
  summarize request log
  = Some (match Extractive.centroid_extractive_summary (text request)
                  (num_sentences request) with
          | Ok result =>
              Respond
                {| response_summary := Extractive.summary result;
                   response_mode := "extractive";
                   response_details :=
                     Some (ExtractiveDetails
                             (Extractive.indices result)
                             (Extractive.scores result)
                             (Extractive.selected_sentences result)) |}
          | Raise e => Uncaught e
          end, log).
Proof.
  intros Hnb Hmode. rewrite <- strip_nil_iff in Hnb.
  rewrite (summarize_not_blank _ _ Hnb), Hmode.
  rewrite bool_decide_eq_true_2 by done.
  by destruct (Extractive.centroid_extractive_summary _ _).
Qed.

(** X16.  A text made only of control characters of the class and
    whitespace, with at least one character that is not whitespace, passes
    the emptiness check of [summarize]; in extractive mode the answer is
    then a regular response with an empty summary and empty details, not
    an error. *)
Theorem summarize_control_only (request : SummarizeRequest) (log : list pystr) :
  Forall (fun c => blank c = true) (text request) ->
  ~ Forall (fun c => is_space c = true) (text request) ->
  lower (mode request) = lit "extractive" ->
  summarize request log
  = Some (Respond {| response_summary := [];
                     response_mode := "extractive";
                     response_details := Some (ExtractiveDetails [] [] []) |},
          log).
Proof.
  intros Hblank Hnb Hmode. rewrite <- strip_nil_iff in Hnb.
  rewrite (summarize_not_blank _ _ Hnb), Hmode.
  rewrite bool_decide_eq_true_2 by done.
  rewrite centroid_empty; [done|].
  unfold Extractive.sentences_of.
  rewrite (proj2 (basic_clean_nil_iff _) Hblank). apply sentence_split_empty.
Qed.


Lemma clean_clean (t : pystr) : basic_clean (basic_clean t) = basic_clean t.
Proof. by rewrite !basic_clean_unwords, words_unwords. Qed.

Lemma abstractive_strip t max_length min_length log :
  Abstractive.abstractive_summary (strip t) max_length min_length log
  = Abstractive.abstractive_summary t max_length min_length log.
Proof. unfold Abstractive.abstractive_summary. by rewrite clean_strip. Qed.

(** X21.  All three summarizers see their input only through
    [basic_clean]: handing them a text that was already stripped, or
    already cleaned, gives the same result as handing them the text
    itself. *)
Theorem summarizers_ignore_precleaning (t : pystr) (k max_length min_length : Z)
    (log : list pystr) :
  (Extractive.centroid_extractive_summary (strip t) k
   = Extractive.centroid_extractive_summary t k
   /\ Extractive.centroid_extractive_summary (basic_clean t) k
      = Extractive.centroid_extractive_summary t k)
  /\ (Extractive.textrank_extractive_summary (strip t) k
      = Extractive.textrank_extractive_summary t k
      /\ Extractive.textrank_extractive_summary (basic_clean t) k
         = Extractive.textrank_extractive_summary t k)
  /\ (Abstractive.abstractive_summary (strip t) max_length min_length log
      = Abstractive.abstractive_summary t max_length min_length log
      /\ Abstractive.abstractive_summary (basic_clean t) max_length min_length log
         = Abstractive.abstractive_summary t max_length min_length log).
Proof.
  unfold Extractive.centroid_extractive_summary,
    Extractive.textrank_extractive_summary, Abstractive.abstractive_summary.
  by rewrite !clean_strip, !clean_clean.
Qed.

(** X22.  In abstractive mode (the lower-cased mode is "abstractive") and
    for a text that is not all whitespace, [summarize] serves what
    [abstractive_summary] returns for the text as it was sent: its
    summary, and its chunks and chunk summaries as details; the calls of
    the generative model are those of [abstractive_summary].  It always
    answers. *)
Theorem summarize_abstractive (request : SummarizeRequest) (log : list pystr) :
  ~ Forall (fun c => is_space c = true) (text request) ->
  lower (mode request) = lit "abstractive" ->
  exists result log',
    Abstractive.abstractive_summary (text request) (max_length request)
      (min_length request) log = Some (result, log')
    /\ summarize request log
       = Some (Respond
                 {| response_summary := Abstractive.summary result;
                    response_mode := "abstractive";
                    response_details :=
                      Some (AbstractiveDetails
                              (Abstractive.chunks result)
                              (Abstractive.chunk_summaries result)) |},
               log').
Proof.
  intros Hnb Hmode. rewrite <- strip_nil_iff in Hnb.
  destruct (AbstractiveSpec.abstractive_summary_returns (text request)
              (max_length request) (min_length request) log) as (r & log' & Hr).
  exists r, log'. split; [exact Hr|].
  rewrite (summarize_not_blank _ _ Hnb), Hmode.
  rewrite bool_decide_eq_false_2 by discriminate.
  rewrite bool_decide_eq_true_2 by done.
  by rewrite abstractive_strip, Hr.
Qed.

End WithCollaborators.

(** *** The endpoints at work on the stand-in collaborators *)

Lemma summarize_abstractive_witness :
  exists result log',
    Abstractive.abstractive_summary (P := AbstractiveSpec.truncating_pipeline)
      (lit " Hello   world. ") 5 1 [] = Some (result, log')
    /\ summarize (B := ToyBackend.ties_first)
         (P := AbstractiveSpec.truncating_pipeline) (T := latin1_runtime)
         {| text := lit " Hello   world. "; mode := lit "ABSTRACTIVE";
            num_sentences := 3; max_length := 5; min_length := 1 |} []
       = Some (Respond
                 {| response_summary := Abstractive.summary result;
                    response_mode := "abstractive";
                    response_details :=
                      Some (AbstractiveDetails (B := ToyBackend.ties_first)
                              (Abstractive.chunks result)
                              (Abstractive.chunk_summaries result)) |},
               log').
Proof.
  apply (summarize_abstractive (B := ToyBackend.ties_first)
           (P := AbstractiveSpec.truncating_pipeline) (T := latin1_runtime)
           {| text := lit " Hello   world. "; mode := lit "ABSTRACTIVE";
              num_sentences := 3; max_length := 5; min_length := 1 |} []).
  - rewrite <- strip_nil_iff. vm_compute. discriminate.
  - vm_compute. reflexivity.
Defined.

Lemma summarize_extractive_witness :
  summarize (B := ToyBackend.ties_first) (P := AbstractiveSpec.truncating_pipeline)
    (T := latin1_runtime)
    {| text := lit "  " ++ ExtractiveSpec.pets_text;
       mode := lit "Extractive";
       num_sentences := 1; max_length := 130; min_length := 30 |} []
  = Some (Respond
            {| response_summary := lit "Both are common household animals.";
               response_mode := "extractive";
               response_details :=
                 Some (ExtractiveDetails (B := ToyBackend.ties_first)
                         [2] [(2550 # 3)%Q]
                         [lit "Both are common household animals."]) |},
          []).
Proof.
  rewrite (summarize_extractive (B := ToyBackend.ties_first)
             (P := AbstractiveSpec.truncating_pipeline) (T := latin1_runtime)).
  - vm_compute. reflexivity.
  - rewrite <- strip_nil_iff. vm_compute. discriminate.
  - vm_compute. reflexivity.
Defined.

Lemma summarize_control_only_witness :
  summarize (B := ToyBackend.ties_first) (P := AbstractiveSpec.truncating_pipeline)
    (T := latin1_runtime)
    {| text := [0%N; 7%N; 32%N];
       mode := lit "extractive";
       num_sentences := 3; max_length := 130; min_length := 30 |} []
  = Some (Respond {| response_summary := [];
                     response_mode := "extractive";
                     response_details :=
                       Some (ExtractiveDetails (B := ToyBackend.ties_first) [] [] []) |},
          []).
Proof.
  apply (summarize_control_only (B := ToyBackend.ties_first)
           (P := AbstractiveSpec.truncating_pipeline) (T := latin1_runtime)).
  - by repeat constructor.
  - rewrite <- strip_nil_iff. vm_compute. discriminate.
  - reflexivity.
Defined.


End ApiSpec.
